(** * Job sequencing with deadlines: [greedy_algorithms::getJobScheduling]

    A shallow embedding of [greedy_algorithms/job_sequencing_algorithm.cpp]
    and the properties of its scheduler.

    The C++ function relies on two facilities of the standard library whose
    results are only specified up to the order of equivalent elements:
    [std::sort] and the heap algorithms behind [std::priority_queue].  They
    are modelled as interfaces (type classes) that carry exactly the
    postconditions the C++ standard gives them; every property of the
    scheduler is proved for all conforming implementations, and executable
    instances are supplied to run the code on concrete inputs. *)

From Stdlib Require Import ZArith List Ascii Lia Permutation Sorted.
From stdpp Require Import base decidable option list sorting strings.

Local Open Scope Z_scope.

(** ** The [int] type *)

Definition INT_MIN : Z := - 2 ^ 31.
Definition INT_MAX : Z := 2 ^ 31 - 1.

Definition int_range (z : Z) : Prop := INT_MIN <= z <= INT_MAX.

(** Two's complement wrap-around of a mathematical integer into [int].  (C++
    leaves signed overflow undefined; the properties that depend on the value
    of a subtraction are stated for deadlines on which none occurs.) *)
Definition int_wrap (z : Z) : Z := (z + 2 ^ 31) mod 2 ^ 32 - 2 ^ 31.

Definition int_sub (a b : Z) : Z := int_wrap (a - b).

(** ** Comparators *)

(** What the standard requires of a comparison object: a strict weak
    ordering. *)
Definition strict_weak_order {A : Type} (comp : A -> A -> bool) : Prop :=
  (forall a, comp a a = false) /\
  (forall a b c, comp a b = true -> comp b c = true -> comp a c = true) /\
  (forall a b c, comp a b = false -> comp b c = false -> comp a c = false).

(** [a] does not come after [b]: the relation between an earlier and a later
    element of a range sorted with [comp]. *)
Definition not_after {A : Type} (comp : A -> A -> bool) : relation A :=
  fun a b => comp b a = false.

(** ** [std::sort] *)

(** Given a strict weak ordering, the result is a permutation of the range
    in which no element compares less than an element before it.  The
    relative order of equivalent elements is left to the implementation. *)
Class StdSort : Type := {
  std_sort : forall {A : Type}, (A -> A -> bool) -> list A -> list A;
  std_sort_perm : forall (A : Type) (comp : A -> A -> bool) (l : list A),
    strict_weak_order comp -> std_sort comp l ≡ₚ l;
  std_sort_sorted : forall (A : Type) (comp : A -> A -> bool) (l : list A),
    strict_weak_order comp -> StronglySorted (not_after comp) (std_sort comp l)
}.

(** ** [std::push_heap], [std::pop_heap] and [std::priority_queue] *)

(** [std::is_heap]: no element compares greater than its parent, the parent
    of position [i] being position [(i - 1) / 2]. *)
Definition is_heap {A : Type} (comp : A -> A -> bool) (c : list A) : Prop :=
  forall (i : nat) (x y : A),
    (0 < i)%nat -> c !! ((i - 1) / 2)%nat = Some x -> c !! i = Some y ->
    comp x y = false.

(** [push_heap] takes a range whose last element was just appended to a heap
    and makes the whole range a heap; [pop_heap] takes a non-empty heap, puts
    its first element last and makes the rest a heap. *)
Class StdHeap : Type := {
  std_push_heap : forall {A : Type}, (A -> A -> bool) -> list A -> list A;
  std_pop_heap : forall {A : Type}, (A -> A -> bool) -> list A -> list A;
  std_push_heap_perm :
    forall (A : Type) (comp : A -> A -> bool) (c : list A) (x : A),
      strict_weak_order comp -> is_heap comp c ->
      std_push_heap comp (c ++ [x]) ≡ₚ c ++ [x];
  std_push_heap_heap :
    forall (A : Type) (comp : A -> A -> bool) (c : list A) (x : A),
      strict_weak_order comp -> is_heap comp c ->
      is_heap comp (std_push_heap comp (c ++ [x]));
  std_pop_heap_spec :
    forall (A : Type) (comp : A -> A -> bool) (c : list A) (x : A),
      strict_weak_order comp -> is_heap comp (x :: c) ->
      exists c', std_pop_heap comp (x :: c) = c' ++ [x] /\
                 c' ≡ₚ c /\ is_heap comp c'
}.

(** The container adaptor, as the standard defines it over a vector [c] and
    a comparison object [comp]. *)
Record priority_queue (A : Type) : Type := mk_priority_queue {
  pq_comp : A -> A -> bool;
  pq_c : list A
}.
Arguments mk_priority_queue {A} _ _.
Arguments pq_comp {A} _.
Arguments pq_c {A} _.

Section PriorityQueue.
Context {Heap : StdHeap} {A : Type}.

(** [priority_queue pq(comp)] *)
Definition pq_new (comp : A -> A -> bool) : priority_queue A :=
  mk_priority_queue comp [].

(** [pq.push(x)]: [c.push_back(x); push_heap(c.begin(), c.end(), comp)] *)
Definition pq_push (x : A) (pq : priority_queue A) : priority_queue A :=
  mk_priority_queue (pq_comp pq) (std_push_heap (pq_comp pq) (pq_c pq ++ [x])).

(** [pq.top()]: [c.front()] *)
Definition pq_top (pq : priority_queue A) : option A := head (pq_c pq).

(** [pq.pop()]: [pop_heap(c.begin(), c.end(), comp); c.pop_back()] *)
Definition pq_pop (pq : priority_queue A) : priority_queue A :=
  mk_priority_queue (pq_comp pq) (removelast (std_pop_heap (pq_comp pq) (pq_c pq))).

(** [pq.size()] *)
Definition pq_size (pq : priority_queue A) : nat := length (pq_c pq).

End PriorityQueue.

(** A queue is well formed when its comparison object is a strict weak
    ordering and its vector is a heap; every operation below is only
    specified on such queues. *)
Definition pq_wf {A : Type} (pq : priority_queue A) : Prop :=
  strict_weak_order (pq_comp pq) /\ is_heap (pq_comp pq) (pq_c pq).

(** ** The program *)

Module greedy_algorithms.

(** [struct Job] *)
Record Job : Type := mkJob {
  id : ascii;     (* Job Id *)
  dead : Z;       (* Deadline of job *)
  profit : Z      (* Profit earned if job is completed before deadline *)
}.

#[global] Instance Job_eq_dec : EqDecision Job.
Proof. solve_decision. Defined.

#[global] Instance Job_inhabited : Inhabited Job :=
  populate (mkJob "000"%char 0 0).

(** [jobComparator]: true if the profit of [a] is less than the profit of
    [b]. *)
Definition jobComparator (a b : Job) : bool := profit a <? profit b.

(** The lambda handed to both calls of [sort]:
    [[](Job a, Job b) { return a.dead < b.dead; }] *)
Definition deadComparator (a b : Job) : bool := dead a <? dead b.

Section Scheduler.
Context {Sort : StdSort} {Heap : StdHeap}.

(** The slots available between job [i] of the sorted array and the job
    before it (the [if (i == 0) ... else ...] of the loop body). *)
Definition slot_available (arr : list Job) (i : nat) : Z :=
  if decide (i = 0%nat) then dead (arr !!! i)
  else int_sub (dead (arr !!! i)) (dead (arr !!! (i - 1)%nat)).

(** [while (slot_available > 0 && pq.size() > 0) { ... }].  Every round
    decrements a positive [slot_available], so [Z.to_nat slot_available]
    rounds of fuel are never used up before the condition fails. *)
Fixpoint while_loop (fuel : nat) (slot_available : Z)
    (pq : priority_queue Job) (result : list Job)
    : Z * priority_queue Job * list Job :=
  match fuel with
  | O => (slot_available, pq, result)
  | S fuel' =>
      if (0 <? slot_available) && (0 <? pq_size pq)%nat then
        match pq_top pq with
        | Some job =>
            let pq := pq_pop pq in
            let slot_available := int_sub slot_available 1 in
            let result := result ++ [job] in
            while_loop fuel' slot_available pq result
        | None => (slot_available, pq, result)
        end
      else (slot_available, pq, result)
  end.

(** One round of the [for] loop, at index [i]. *)
Definition loop_body (arr : list Job) (i : nat)
    (pq : priority_queue Job) (result : list Job)
    : priority_queue Job * list Job :=
  let slot_available := slot_available arr i in
  let pq := pq_push (arr !!! i) pq in
  let '(_, pq, result) :=
    while_loop (Z.to_nat slot_available) slot_available pq result in
  (pq, result).

(** [for (int i = n - 1; i >= 0; i--) { ... }] *)
Fixpoint for_loop (arr : list Job) (n : nat)
    (pq : priority_queue Job) (result : list Job)
    : priority_queue Job * list Job :=
  match n with
  | O => (pq, result)
  | S i =>
      let '(pq, result) := loop_body arr i pq result in
      for_loop arr i pq result
  end.

(** [for (int i = 0; i < result.size(); i++) answer.push_back(result[i].id)] *)
Definition extract_ids (result : list Job) : list ascii :=
  fold_left (fun answer job => answer ++ [id job]) result [].

(** The state of the function just before the identifiers are extracted:
    the caller's array, which [sort] has reordered in place, and the
    [result] vector after the second [sort]. *)
Definition schedule (arr : list Job) : list Job * list Job :=
  let result := [] in
  let arr := std_sort deadComparator arr in
  let pq := pq_new jobComparator in
  let '(_, result) := for_loop arr (length arr) pq result in
  let result := std_sort deadComparator result in
  (arr, result).

(** The array as the call leaves it. *)
Definition array_after (arr : list Job) : list Job := fst (schedule arr).

(** The jobs selected, in the order in which their identifiers are
    returned. *)
Definition scheduled (arr : list Job) : list Job := snd (schedule arr).

(** [getJobScheduling(arr)]: the array is taken by reference, so the call
    yields the array it leaves behind together with the returned vector. *)
Definition getJobScheduling (arr : list Job) : list Job * list ascii :=
  let '(arr, result) := schedule arr in
  let answer := extract_ids result in
  (arr, answer).

End Scheduler.

(** The two arrays of [tests()]. *)
Definition jobs1 : list Job :=
  [mkJob "a" 2 100; mkJob "b" 1 19; mkJob "c" 2 27; mkJob "d" 1 25;
   mkJob "e" 3 15].

Definition jobs2 : list Job :=
  [mkJob "x" 1 50; mkJob "y" 2 60; mkJob "z" 2 20; mkJob "w" 3 30].

End greedy_algorithms.

Import greedy_algorithms.

(** ** The vocabulary of the properties *)

(** The number of jobs of [l] whose deadline is at most [t]. *)
Definition count_le (t : Z) (l : list Job) : nat :=
  length (filter (fun j => dead j <= t) l).

(** An input whose deadlines are non-negative values of type [int]: every
    array the problem admits (deadlines of at least 1), and those with a
    deadline of 0 as well. *)
Definition deadline_ok (j : Job) : Prop := 0 <= dead j <= INT_MAX.

#[global] Instance deadline_ok_dec (j : Job) : Decision (deadline_ok j).
Proof. unfold deadline_ok. apply _. Defined.

(** The largest deadline of an array of non-negative deadlines ([0] when it
    is empty). *)
Definition max_deadline (arr : list Job) : Z :=
  foldr (fun j m => Z.max (dead j) m) 0 arr.

(** The profit a selection earns. *)
Definition total_profit (l : list Job) : Z :=
  foldr (fun j total => profit j + total) 0 l.

(** ** Executable implementations of the library interfaces *)

(** Straight insertion, the way [std::sort] handles short ranges: an element
    is moved in front of the first element it compares less than. *)
Fixpoint linear_insert {A : Type} (comp : A -> A -> bool) (x : A)
    (l : list A) : list A :=
  match l with
  | [] => [x]
  | y :: l' => if comp x y then x :: y :: l' else y :: linear_insert comp x l'
  end.

Definition insertion_sort {A : Type} (comp : A -> A -> bool) (l : list A)
    : list A :=
  fold_left (fun sorted x => linear_insert comp x sorted) l [].

(** The same after reversing the range: a second implementation of
    [std::sort], which orders equivalent elements the other way round. *)
Definition reverse_insertion_sort {A : Type} (comp : A -> A -> bool)
    (l : list A) : list A :=
  insertion_sort comp (reverse l).

(** A vector kept in descending order is a heap; the two heap algorithms
    below restore that order. *)
Definition sorted_push_heap {A : Type} (comp : A -> A -> bool) (c : list A)
    : list A :=
  insertion_sort (flip comp) c.

Definition sorted_pop_heap {A : Type} (comp : A -> A -> bool) (c : list A)
    : list A :=
  match c with
  | [] => []
  | x :: c' => insertion_sort (flip comp) c' ++ [x]
  end.

(** ** Facts about comparators and the implementations *)

Section Comparators.
Context {A : Type} (comp : A -> A -> bool).
Hypothesis comp_swo : strict_weak_order comp.

Lemma swo_irrefl (a : A) : comp a a = false.
Proof. apply comp_swo. Qed.

Lemma swo_asym (a b : A) : comp a b = true -> comp b a = false.
Proof.
  intros Hab. destruct (comp b a) eqn:Hba; [|done].
  destruct comp_swo as (Hirr & Htr & _).
  rewrite <- (Hirr a). symmetry. by apply Htr with b.
Qed.

Lemma swo_negtrans (a b c : A) :
  comp a b = false -> comp b c = false -> comp a c = false.
Proof. apply comp_swo. Qed.

Lemma swo_flip : strict_weak_order (flip comp).
Proof.
  destruct comp_swo as (Hirr & Htr & Hneg). unfold flip.
  repeat split; [done| |]; intros a b c ? ?; eauto.
Qed.

Lemma not_after_trans : Transitive (not_after comp).
Proof. intros a b c Hab Hbc. unfold not_after in *. eauto using swo_negtrans. Qed.

Lemma linear_insert_perm (x : A) (l : list A) : linear_insert comp x l ≡ₚ x :: l.
Proof.
  induction l as [|y l IH]; simpl; [done|].
  destruct (comp x y); [done|]. rewrite IH. apply Permutation_swap.
Qed.

Lemma linear_insert_sorted (x : A) (l : list A) :
  StronglySorted (not_after comp) l ->
  StronglySorted (not_after comp) (linear_insert comp x l).
Proof.
  induction 1 as [|y l Hl IH Hy]; simpl.
  - repeat constructor.
  - destruct (comp x y) eqn:Hxy.
    + constructor; [by constructor|].
      constructor; [by apply swo_asym|].
      eapply Forall_impl; [exact Hy|]. intros z Hz. unfold not_after in *.
      destruct (comp z x) eqn:Hzx; [|done].
      destruct comp_swo as (_ & Htr & _). rewrite <- Hz. symmetry. eauto.
    + constructor; [done|].
      rewrite linear_insert_perm. by constructor.
Qed.

Lemma insertion_sort_acc_perm (l acc : list A) :
  fold_left (fun sorted x => linear_insert comp x sorted) l acc ≡ₚ acc ++ l.
Proof.
  revert acc. induction l as [|x l IH]; intros acc; simpl.
  - by rewrite app_nil_r.
  - rewrite IH, linear_insert_perm. simpl. apply Permutation_middle.
Qed.

Lemma insertion_sort_perm (l : list A) : insertion_sort comp l ≡ₚ l.
Proof. apply insertion_sort_acc_perm. Qed.

Lemma insertion_sort_acc_sorted (l acc : list A) :
  StronglySorted (not_after comp) acc ->
  StronglySorted (not_after comp)
    (fold_left (fun sorted x => linear_insert comp x sorted) l acc).
Proof.
  revert acc. induction l as [|x l IH]; intros acc Hacc; simpl; [done|].
  by apply IH, linear_insert_sorted.
Qed.

Lemma insertion_sort_sorted (l : list A) :
  StronglySorted (not_after comp) (insertion_sort comp l).
Proof. apply insertion_sort_acc_sorted. constructor. Qed.

End Comparators.

Lemma StronglySorted_lookup {A : Type} (R : relation A) (l : list A)
    (i j : nat) (x y : A) :
  StronglySorted R l -> (i < j)%nat -> l !! i = Some x -> l !! j = Some y ->
  R x y.
Proof.
  intros Hl. revert i j. induction Hl as [|a l Hl IH Ha]; intros i j Hij Hi Hj.
  - done.
  - destruct j as [|j]; [lia|]. simpl in Hj.
    destruct i as [|i]; simpl in Hi.
    + injection Hi as ->. rewrite Forall_forall in Ha.
      apply Ha. by eapply list_elem_of_lookup_2.
    + apply (IH i j); [lia|done..].
Qed.

Lemma parent_lt (i : nat) : (0 < i)%nat -> ((i - 1) / 2 < i)%nat.
Proof.
  intros Hi. apply Nat.Div0.div_lt_upper_bound. lia.
Qed.

Lemma descending_is_heap {A : Type} (comp : A -> A -> bool) (c : list A) :
  StronglySorted (not_after (flip comp)) c -> is_heap comp c.
Proof.
  intros Hc i x y Hi Hx Hy.
  apply (StronglySorted_lookup _ _ _ _ _ _ Hc (parent_lt i Hi) Hx Hy).
Qed.

(** Insertion sort implements [std::sort]. *)
#[local] Program Instance insertion_StdSort : StdSort := {|
  std_sort := @insertion_sort
|}.
Next Obligation. intros A comp l _. apply insertion_sort_perm. Qed.
Next Obligation. intros A comp l Hswo. by apply insertion_sort_sorted. Qed.

(** So does insertion sort on the reversed range. *)
Definition reversing_StdSort : StdSort := {|
  std_sort := @reverse_insertion_sort;
  std_sort_perm := fun A comp l _ =>
    transitivity (insertion_sort_perm comp (reverse l)) (reverse_Permutation l);
  std_sort_sorted := fun A comp l Hswo =>
    insertion_sort_sorted comp Hswo (reverse l)
|}.

(** The descending vector implements the heap algorithms. *)
#[local] Program Instance sorted_StdHeap : StdHeap := {|
  std_push_heap := @sorted_push_heap;
  std_pop_heap := @sorted_pop_heap
|}.
Next Obligation. intros A comp c x _ _. apply insertion_sort_perm. Qed.
Next Obligation.
  intros A comp c x Hswo _. apply descending_is_heap.
  by apply insertion_sort_sorted, swo_flip.
Qed.
Next Obligation.
  intros A comp c x Hswo _. exists (insertion_sort (flip comp) c).
  split; [done|]. split; [apply insertion_sort_perm|].
  apply descending_is_heap. by apply insertion_sort_sorted, swo_flip.
Qed.

(** ** The priority queue keeps its elements and hands out a greatest one *)

Lemma is_heap_nil {A : Type} (comp : A -> A -> bool) : is_heap comp [].
Proof. intros i x y _ Hx. by rewrite lookup_nil in Hx. Qed.

Lemma is_heap_top {A : Type} (comp : A -> A -> bool) (x : A) (c : list A) :
  strict_weak_order comp -> is_heap comp (x :: c) ->
  forall y, y ∈ x :: c -> comp x y = false.
Proof.
  intros Hswo Hheap y Hy. apply list_elem_of_lookup in Hy as [i Hi].
  revert y Hi. induction (lt_wf i) as [i _ IH]. intros y Hi.
  destruct (decide (i = 0%nat)) as [->|Hne].
  - simpl in Hi. injection Hi as <-. by apply swo_irrefl.
  - assert (0 < i)%nat as Hpos by lia.
    pose proof (parent_lt i Hpos) as Hlt.
    destruct (lookup_lt_is_Some_2 (x :: c) ((i - 1) / 2)%nat) as [p Hp].
    { apply lookup_lt_Some in Hi. lia. }
    apply (swo_negtrans comp Hswo x p y); [by apply (IH _ Hlt)|].
    by apply (Hheap i).
Qed.

Section PriorityQueueFacts.
Context {Heap : StdHeap} {A : Type}.
Implicit Types (pq : priority_queue A) (x : A).

Lemma pq_new_wf (comp : A -> A -> bool) :
  strict_weak_order comp -> pq_wf (pq_new comp).
Proof. intros Hswo. split; [done|]. apply is_heap_nil. Qed.

Lemma pq_push_comp x pq : pq_comp (pq_push x pq) = pq_comp pq.
Proof. done. Qed.

Lemma pq_push_wf x pq : pq_wf pq -> pq_wf (pq_push x pq).
Proof. intros [Hswo Hheap]. split; [done|]. by apply std_push_heap_heap. Qed.

Lemma pq_push_perm x pq : pq_wf pq -> pq_c (pq_push x pq) ≡ₚ x :: pq_c pq.
Proof.
  intros [Hswo Hheap]. simpl. rewrite std_push_heap_perm by done.
  by rewrite Permutation_app_comm.
Qed.

Lemma pq_top_nonempty pq :
  (0 < pq_size pq)%nat -> exists x, pq_top pq = Some x.
Proof.
  unfold pq_size, pq_top. destruct (pq_c pq) as [|x c]; simpl; [lia|eauto].
Qed.

Lemma pq_top_elem pq x : pq_top pq = Some x -> x ∈ pq_c pq.
Proof.
  unfold pq_top. destruct (pq_c pq) as [|y c]; simpl; [done|].
  intros [= ->]. apply list_elem_of_here.
Qed.

Lemma pq_top_max pq x :
  pq_wf pq -> pq_top pq = Some x ->
  forall y, y ∈ pq_c pq -> pq_comp pq x y = false.
Proof.
  intros [Hswo Hheap]. unfold pq_top.
  destruct (pq_c pq) as [|z c]; simpl; [done|]. intros [= ->].
  by apply is_heap_top.
Qed.

Lemma pq_pop_comp pq : pq_comp (pq_pop pq) = pq_comp pq.
Proof. done. Qed.

Lemma pq_pop_spec pq x :
  pq_wf pq -> pq_top pq = Some x ->
  pq_wf (pq_pop pq) /\ x :: pq_c (pq_pop pq) ≡ₚ pq_c pq.
Proof.
  intros [Hswo Hheap]. unfold pq_top, pq_pop, pq_wf. simpl.
  destruct (pq_c pq) as [|z c]; simpl; [done|]. intros [= ->].
  destruct (std_pop_heap_spec A (pq_comp pq) c x Hswo Hheap)
    as (c' & -> & Hperm & Hheap').
  rewrite removelast_last. split; [done|]. by rewrite Hperm.
Qed.

End PriorityQueueFacts.

(** ** Integers and the two comparison objects *)

Lemma int_wrap_exact (z : Z) : int_range z -> int_wrap z = z.
Proof.
  unfold int_range, INT_MIN, INT_MAX, int_wrap. intros Hz.
  rewrite Z.mod_small; lia.
Qed.

Lemma int_sub_exact (a b : Z) : int_range (a - b) -> int_sub a b = a - b.
Proof. apply int_wrap_exact. Qed.

Lemma int_wrap_range (z : Z) : int_range (int_wrap z).
Proof.
  unfold int_range, INT_MIN, INT_MAX, int_wrap.
  pose proof (Z.mod_pos_bound (z + 2 ^ 31) (2 ^ 32)). lia.
Qed.

Lemma jobComparator_swo : strict_weak_order jobComparator.
Proof.
  unfold jobComparator. repeat split.
  - intros a. apply Z.ltb_irrefl.
  - intros a b c. rewrite !Z.ltb_lt. lia.
  - intros a b c. rewrite !Z.ltb_ge. lia.
Qed.

Lemma deadComparator_swo : strict_weak_order deadComparator.
Proof.
  unfold deadComparator. repeat split.
  - intros a. apply Z.ltb_irrefl.
  - intros a b c. rewrite !Z.ltb_lt. lia.
  - intros a b c. rewrite !Z.ltb_ge. lia.
Qed.

Lemma not_after_dead (a b : Job) :
  not_after deadComparator a b <-> dead a <= dead b.
Proof. unfold not_after, deadComparator. by rewrite Z.ltb_ge. Qed.

Lemma extract_ids_acc (result : list Job) (answer : list ascii) :
  fold_left (fun answer job => answer ++ [id job]) result answer
  = answer ++ (id <$> result).
Proof.
  revert answer. induction result as [|j result IH]; intros answer; simpl.
  - by rewrite app_nil_r.
  - rewrite IH. by rewrite <- app_assoc.
Qed.

Lemma extract_ids_fmap (result : list Job) : extract_ids result = id <$> result.
Proof. apply extract_ids_acc. Qed.

(** ** The loops *)

Section Loops.
Context {Heap : StdHeap}.

(** The inner loop moves jobs from the queue to the end of [result], at most
    one per unit of fuel. *)
Lemma while_loop_spec (fuel : nat) (slot : Z) (pq : priority_queue Job)
    (result : list Job) :
  pq_wf pq ->
  exists slot' pq' popped,
    while_loop fuel slot pq result = (slot', pq', result ++ popped) /\
    pq_wf pq' /\ pq_comp pq' = pq_comp pq /\
    popped ++ pq_c pq' ≡ₚ pq_c pq /\ (length popped <= fuel)%nat.
Proof.
  revert slot pq result. induction fuel as [|fuel IH]; intros slot pq result Hwf.
  - exists slot, pq, []. rewrite app_nil_r. by split_and!.
  - simpl. destruct ((0 <? slot) && (0 <? pq_size pq)%nat) eqn:Hcond;
      [|exists slot, pq, []; rewrite app_nil_r; split_and!; try done; simpl; lia].
    destruct (pq_top pq) as [job|] eqn:Htop;
      [|exists slot, pq, []; rewrite app_nil_r; split_and!; try done; simpl; lia].
    destruct (pq_pop_spec pq job Hwf Htop) as [Hwf' Hperm].
    destruct (IH (int_sub slot 1) (pq_pop pq) (result ++ [job]) Hwf')
      as (slot' & pq' & popped & Heq & Hwf'' & Hcomp & Hperm' & Hlen).
    exists slot', pq', (job :: popped). rewrite Heq, <- app_assoc. simpl.
    split_and!; [done..| |lia].
    by rewrite Hperm'.
Qed.

(** With [Z.to_nat slot] rounds of fuel the inner loop stops because its
    condition has become false, as the C++ loop does. *)
Lemma while_loop_exit (fuel : nat) (slot : Z) (pq : priority_queue Job)
    (result : list Job) :
  slot <= INT_MAX -> (Z.to_nat slot <= fuel)%nat ->
  forall slot' pq' result',
    while_loop fuel slot pq result = (slot', pq', result') ->
    (0 <? slot') && (0 <? pq_size pq')%nat = false.
Proof.
  revert slot pq result.
  induction fuel as [|fuel IH]; intros slot pq result Hmax Hfuel slot' pq' result'.
  - simpl. intros [= <- <- <-].
    assert (slot <= 0) as Hslot by lia.
    apply Z.ltb_ge in Hslot. by rewrite Hslot.
  - simpl. destruct ((0 <? slot) && (0 <? pq_size pq)%nat) eqn:Hcond;
      [|by intros [= <- <- <-]].
    apply andb_true_iff in Hcond as [Hslot Hsize].
    apply Z.ltb_lt in Hslot. apply Nat.ltb_lt in Hsize.
    destruct (pq_top_nonempty pq Hsize) as [job ->].
    assert (int_sub slot 1 = slot - 1) as ->.
    { apply int_sub_exact. unfold int_range, INT_MIN, INT_MAX in *. lia. }
    apply IH; lia.
Qed.

(** In particular the inner loop of round [i] stops on its condition. *)
Lemma loop_body_while_exit (arr : list Job) (i : nat)
    (pq : priority_queue Job) (result : list Job) :
  int_range (dead (arr !!! i)) ->
  forall slot' pq' result',
    while_loop (Z.to_nat (slot_available arr i)) (slot_available arr i)
      (pq_push (arr !!! i) pq) result = (slot', pq', result') ->
    (0 <? slot') && (0 <? pq_size pq')%nat = false.
Proof.
  intros Hrange. apply while_loop_exit; [|done].
  unfold slot_available. destruct (decide (i = 0%nat)); [apply Hrange|].
  apply int_wrap_range.
Qed.

(** An invariant that every round of the outer loop carries from [S i] to
    [i] holds, after the loop, at [0]. *)
Lemma for_loop_invariant (arr : list Job)
    (P : nat -> priority_queue Job -> list Job -> Prop) (n : nat) :
  (forall i pq result,
     (i < n)%nat -> P (S i) pq result ->
     P i (loop_body arr i pq result).1 (loop_body arr i pq result).2) ->
  forall pq result,
    P n pq result ->
    P 0%nat (for_loop arr n pq result).1 (for_loop arr n pq result).2.
Proof.
  induction n as [|n IH]; intros Hstep pq result HP; simpl; [done|].
  destruct (loop_body arr n pq result) as [pq1 result1] eqn:Hbody.
  apply IH.
  - intros i pq' result' Hi. apply Hstep. lia.
  - specialize (Hstep n pq result (Nat.lt_succ_diag_r n) HP).
    by rewrite Hbody in Hstep.
Qed.

(** One round pushes job [i] and appends some of the queued jobs to
    [result]. *)
Lemma loop_body_spec (arr : list Job) (i : nat) (pq : priority_queue Job)
    (result : list Job) :
  pq_wf pq ->
  exists pq' popped,
    loop_body arr i pq result = (pq', result ++ popped) /\
    pq_wf pq' /\ pq_comp pq' = pq_comp pq /\
    popped ++ pq_c pq' ≡ₚ arr !!! i :: pq_c pq /\
    (length popped <= Z.to_nat (slot_available arr i))%nat.
Proof.
  intros Hwf. unfold loop_body.
  destruct (while_loop_spec (Z.to_nat (slot_available arr i))
              (slot_available arr i) (pq_push (arr !!! i) pq) result)
    as (slot' & pq' & popped & -> & Hwf' & Hcomp & Hperm & Hlen).
  { by apply pq_push_wf. }
  exists pq', popped. split_and!; [done..| |done].
  by rewrite Hperm, pq_push_perm.
Qed.

End Loops.

(** ** Invariants of the outer loop *)

Lemma count_le_app (t : Z) (l1 l2 : list Job) :
  count_le t (l1 ++ l2) = (count_le t l1 + count_le t l2)%nat.
Proof. unfold count_le. by rewrite filter_app, length_app. Qed.

Lemma count_le_length (t : Z) (l : list Job) : (count_le t l <= length l)%nat.
Proof. apply length_filter. Qed.

Lemma count_le_none (t : Z) (l : list Job) :
  Forall (fun j => t < dead j) l -> count_le t l = 0%nat.
Proof.
  unfold count_le. induction 1 as [|j l Hj _ IH]; [done|].
  rewrite filter_cons_False by lia. done.
Qed.

Lemma count_le_all (t : Z) (l : list Job) :
  Forall (fun j => dead j <= t) l -> count_le t l = length l.
Proof.
  unfold count_le. induction 1 as [|j l Hj _ IH]; [done|].
  rewrite filter_cons_True by done. simpl. by rewrite IH.
Qed.

Lemma count_le_perm (t : Z) (l1 l2 : list Job) :
  l1 ≡ₚ l2 -> count_le t l1 = count_le t l2.
Proof. unfold count_le. by intros ->. Qed.

Lemma sorted_drop_bound (arr : list Job) (i : nat) (a x : Job) :
  StronglySorted (not_after deadComparator) arr ->
  arr !! i = Some a -> x ∈ drop i arr -> dead a <= dead x.
Proof.
  intros Hsorted Ha Hx. apply list_elem_of_lookup in Hx as [k Hk].
  rewrite lookup_drop in Hk. destruct k as [|k].
  - rewrite Nat.add_0_r, Ha in Hk. injection Hk as ->. lia.
  - apply not_after_dead.
    apply (StronglySorted_lookup _ arr i (i + S k) a x); [done|lia|done..].
Qed.

Section Invariants.
Context {Heap : StdHeap}.
Variable arr : list Job.

(** Once the rounds for the indices [n] and above have run, the jobs at
    those indices are exactly those in the queue and in [result]. *)
Definition contents_inv (n : nat) (pq : priority_queue Job)
    (result : list Job) : Prop :=
  pq_wf pq /\ pq_comp pq = jobComparator /\ pq_c pq ++ result ≡ₚ drop n arr.

Lemma contents_inv_init :
  contents_inv (length arr) (pq_new jobComparator) [].
Proof.
  split_and!; [|done|by rewrite drop_all].
  apply pq_new_wf, jobComparator_swo.
Qed.

Lemma contents_inv_step (i : nat) (pq : priority_queue Job)
    (result : list Job) :
  (i < length arr)%nat -> contents_inv (S i) pq result ->
  contents_inv i (loop_body arr i pq result).1 (loop_body arr i pq result).2.
Proof.
  intros Hi (Hwf & Hcomp & Hperm).
  destruct (loop_body_spec arr i pq result Hwf)
    as (pq' & popped & -> & Hwf' & Hcomp' & Hperm' & _). simpl.
  split_and!; [done|congruence|].
  rewrite (drop_S arr (arr !!! i) i) by by apply list_lookup_lookup_total_lt.
  rewrite <- Hperm, app_comm_cons, <- Hperm'.
  rewrite (Permutation_app_comm popped), <- app_assoc.
  apply Permutation_app_head, Permutation_app_comm.
Qed.

Lemma for_loop_contents (n : nat) (pq : priority_queue Job)
    (result : list Job) :
  (n <= length arr)%nat -> contents_inv n pq result ->
  contents_inv 0 (for_loop arr n pq result).1 (for_loop arr n pq result).2.
Proof.
  intros Hn. apply for_loop_invariant.
  intros i pq' result' Hi. apply contents_inv_step. lia.
Qed.

(** The deadline below the slots handed out so far: that of job [n - 1],
    or the start of time when no job is left. *)
Definition slots_floor (n : nat) : Z :=
  match n with
  | O => 0
  | S i => dead (arr !!! i)
  end.

(** No more jobs with a deadline of at most [t] have been selected than
    there are slots between the floor and [t]. *)
Definition slots_inv (n : nat) (result : list Job) : Prop :=
  forall t, Z.of_nat (count_le t result) <= Z.max 0 (t - slots_floor n).

Hypothesis arr_sorted : StronglySorted (not_after deadComparator) arr.
Hypothesis arr_ok : Forall deadline_ok arr.

Lemma slot_available_floor (i : nat) :
  (i < length arr)%nat ->
  slot_available arr i = dead (arr !!! i) - slots_floor i /\
  slots_floor i <= dead (arr !!! i).
Proof.
  intros Hi. unfold slot_available.
  pose proof (list_lookup_lookup_total_lt arr i Hi) as Hai.
  pose proof (Forall_lookup_1 _ _ _ _ arr_ok Hai) as Hoki.
  unfold deadline_ok in Hoki.
  destruct i as [|i]; simpl.
  - split; lia.
  - rewrite Nat.sub_0_r.
    assert (i < length arr)%nat as Hi' by lia.
    pose proof (list_lookup_lookup_total_lt arr i Hi') as Hap.
    pose proof (Forall_lookup_1 _ _ _ _ arr_ok Hap) as Hokp.
    unfold deadline_ok in Hokp.
    assert (dead (arr !!! i) <= dead (arr !!! S i)) as Hle.
    { apply not_after_dead.
      apply (StronglySorted_lookup _ arr i (S i)); [done|lia|done..]. }
    split; [|done]. apply int_sub_exact.
    unfold int_range, INT_MIN, INT_MAX in *. lia.
Qed.

Lemma slots_inv_step (i : nat) (pq : priority_queue Job)
    (result : list Job) :
  (i < length arr)%nat ->
  contents_inv (S i) pq result -> slots_inv (S i) result ->
  slots_inv i (loop_body arr i pq result).2.
Proof.
  intros Hi (Hwf & Hcomp & Hperm) Hslots.
  destruct (loop_body_spec arr i pq result Hwf)
    as (pq' & popped & -> & Hwf' & Hcomp' & Hperm' & Hlen). simpl.
  destruct (slot_available_floor i Hi) as [Hslot Hfloor].
  pose proof (list_lookup_lookup_total_lt arr i Hi) as Hai.
  assert (Forall (fun j => dead (arr !!! i) <= dead j) popped) as Hpopped.
  { apply Forall_forall. intros x Hx.
    apply (sorted_drop_bound arr i); [done..|].
    rewrite (drop_S arr (arr !!! i) i) by done.
    assert (x ∈ arr !!! i :: pq_c pq) as Hx'.
    { rewrite <- Hperm'. apply elem_of_app. by left. }
    apply elem_of_cons in Hx' as [->|Hx']; [apply list_elem_of_here|].
    apply list_elem_of_further. rewrite <- Hperm. apply elem_of_app. by left. }
  intros t. rewrite count_le_app.
  specialize (Hslots t). simpl in Hslots.
  pose proof (count_le_length t popped) as Hcount.
  destruct (decide (t < dead (arr !!! i))) as [Hlt|Hge].
  - rewrite (count_le_none t popped).
    + lia.
    + eapply Forall_impl; [exact Hpopped|]. simpl. intros j Hj. lia.
  - lia.
Qed.

Lemma for_loop_slots (n : nat) (pq : priority_queue Job)
    (result : list Job) :
  (n <= length arr)%nat ->
  contents_inv n pq result -> slots_inv n result ->
  slots_inv 0 (for_loop arr n pq result).2.
Proof.
  intros Hn Hcontents Hslots.
  apply (for_loop_invariant arr
           (fun k pq' result' => contents_inv k pq' result' /\ slots_inv k result'));
    [|done].
  intros i pq' result' Hi [Hc Hs]. split.
  - apply contents_inv_step; [lia|done].
  - apply slots_inv_step; [lia|done..].
Qed.

End Invariants.

(** ** The scheduler as a whole *)

Section SchedulerFacts.
Context {Sort : StdSort} {Heap : StdHeap}.
Implicit Types (arr : list Job).

Lemma array_after_eq arr : array_after arr = std_sort deadComparator arr.
Proof.
  unfold array_after, schedule.
  by destruct (for_loop (std_sort deadComparator arr) _ _ _).
Qed.

Lemma scheduled_eq arr :
  scheduled arr =
  std_sort deadComparator
    (for_loop (array_after arr) (length (array_after arr))
       (pq_new jobComparator) []).2.
Proof.
  rewrite array_after_eq. unfold scheduled, schedule.
  by destruct (for_loop (std_sort deadComparator arr) _ _ _).
Qed.

Lemma getJobScheduling_eq arr :
  getJobScheduling arr = (array_after arr, id <$> scheduled arr).
Proof.
  unfold getJobScheduling, array_after, scheduled.
  destruct (schedule arr) as [arr' result]. simpl.
  by rewrite extract_ids_fmap.
Qed.

Lemma array_after_perm arr : array_after arr ≡ₚ arr.
Proof. rewrite array_after_eq. apply std_sort_perm, deadComparator_swo. Qed.

Lemma array_after_sorted arr :
  StronglySorted (not_after deadComparator) (array_after arr).
Proof. rewrite array_after_eq. apply std_sort_sorted, deadComparator_swo. Qed.

Lemma scheduled_sorted arr :
  StronglySorted (not_after deadComparator) (scheduled arr).
Proof. rewrite scheduled_eq. apply std_sort_sorted, deadComparator_swo. Qed.

(** The selected jobs, together with the jobs left in the queue, are the
    jobs of the input. *)
Lemma scheduled_contents arr : exists rest, scheduled arr ++ rest ≡ₚ arr.
Proof.
  rewrite scheduled_eq. set (s := array_after arr).
  destruct (for_loop_contents s (length s) (pq_new jobComparator) [])
    as (_ & _ & Hperm); [done|apply contents_inv_init|].
  exists (pq_c (for_loop s (length s) (pq_new jobComparator) []).1).
  rewrite std_sort_perm by apply deadComparator_swo.
  rewrite Permutation_app_comm, Hperm, drop_0.
  apply array_after_perm.
Qed.

Lemma scheduled_slots arr :
  Forall deadline_ok arr ->
  forall t, Z.of_nat (count_le t (scheduled arr)) <= Z.max 0 t.
Proof.
  intros Hok t. rewrite scheduled_eq. set (s := array_after arr).
  rewrite (count_le_perm t _ _ (std_sort_perm _ _ _ deadComparator_swo)).
  assert (Forall deadline_ok s) as Hok'.
  { unfold s. by rewrite array_after_perm. }
  pose proof (for_loop_slots s (array_after_sorted arr) Hok' (length s)
                (pq_new jobComparator) []) as Hslots.
  assert (slots_inv s 0 (for_loop s (length s) (pq_new jobComparator) []).2)
    as Hfinal.
  { apply Hslots; [done|apply contents_inv_init|].
    intros t'. unfold count_le. simpl. lia. }
  specialize (Hfinal t). simpl in Hfinal. by rewrite Z.sub_0_r in Hfinal.
Qed.

Lemma max_deadline_bound arr (j : Job) : j ∈ arr -> dead j <= max_deadline arr.
Proof.
  induction 1 as [j arr|j k arr _ IH]; simpl; lia.
Qed.

Lemma max_deadline_nonneg arr : 0 <= max_deadline arr.
Proof. induction arr as [|j arr IH]; simpl; lia. Qed.

(** On a non-empty array of non-negative deadlines [max_deadline] is the
    deadline of one of the jobs. *)
Lemma max_deadline_attained arr :
  arr <> [] -> Forall deadline_ok arr ->
  exists j, j ∈ arr /\ dead j = max_deadline arr.
Proof.
  intros Hne Hok. induction Hok as [|j arr Hj Hok IH]; [done|]. simpl.
  destruct arr as [|k arr].
  - exists j. split; [apply list_elem_of_here|]. unfold deadline_ok in Hj.
    simpl. lia.
  - destruct IH as (m & Hm & Hdead); [done|].
    destruct (Z.max_spec (dead j) (max_deadline (k :: arr))) as [[_ ->]|[_ ->]].
    + exists m. split; [by apply list_elem_of_further|done].
    + exists j. split; [apply list_elem_of_here|done].
Qed.

End SchedulerFacts.

Lemma sorted_count_le (l : list Job) (p : nat) (j : Job) :
  StronglySorted (not_after deadComparator) l -> l !! p = Some j ->
  (S p <= count_le (dead j) l)%nat.
Proof.
  intros Hsorted Hp.
  rewrite <- (take_drop (S p) l), count_le_app.
  rewrite (count_le_all (dead j) (take (S p) l)).
  - rewrite length_take_le; [lia|]. apply lookup_lt_Some in Hp. lia.
  - apply Forall_lookup. intros i x Hi.
    apply lookup_take_Some in Hi as [Hi Hlt].
    destruct (decide (i = p)) as [->|Hne].
    + rewrite Hp in Hi. injection Hi as ->. lia.
    + apply not_after_dead.
      apply (StronglySorted_lookup _ l i p); [done|lia|done..].
Qed.

Lemma StronglySorted_weaken {A : Type} (R R' : relation A) (l : list A) :
  (forall a b, R a b -> R' a b) -> StronglySorted R l -> StronglySorted R' l.
Proof.
  intros HR. induction 1 as [|a l _ IH Ha]; constructor; [done|].
  eapply Forall_impl; [exact Ha|]. intros b. apply HR.
Qed.

(** ** Distinct profits leave the heap algorithms no choice *)

Lemma NoDup_fmap_elem {A B : Type} (f : A -> B) (l : list A) (x y : A) :
  NoDup (f <$> l) -> x ∈ l -> y ∈ l -> f x = f y -> x = y.
Proof.
  induction l as [|a l IH]; intros Hnd Hx Hy Hf; [by apply elem_of_nil in Hx|].
  rewrite fmap_cons in Hnd. apply NoDup_cons in Hnd as [Ha Hnd].
  apply elem_of_cons in Hx as [->|Hx]; apply elem_of_cons in Hy as [->|Hy].
  - done.
  - exfalso. apply Ha. rewrite Hf. by apply list_elem_of_fmap_2.
  - exfalso. apply Ha. rewrite <- Hf. by apply list_elem_of_fmap_2.
  - by apply IH.
Qed.

Section Independence.
Variables H1 H2 : StdHeap.

(** Two queues, one for each implementation of the heap algorithms, that
    hold the same jobs. *)
Definition pq_rel (pq1 pq2 : priority_queue Job) : Prop :=
  (pq_wf pq1 /\ pq_comp pq1 = jobComparator) /\
  (pq_wf pq2 /\ pq_comp pq2 = jobComparator) /\
  pq_c pq1 ≡ₚ pq_c pq2.

Lemma pq_rel_size pq1 pq2 : pq_rel pq1 pq2 -> pq_size pq1 = pq_size pq2.
Proof. intros (_ & _ & Hperm). unfold pq_size. by rewrite Hperm. Qed.

Lemma pq_rel_top pq1 pq2 (x y : Job) :
  pq_rel pq1 pq2 -> NoDup (profit <$> pq_c pq1) ->
  pq_top pq1 = Some x -> pq_top pq2 = Some y -> x = y.
Proof.
  intros ([Hwf1 Hc1] & [Hwf2 Hc2] & Hperm) Hnd Hx Hy.
  pose proof (pq_top_elem pq1 x Hx) as Hx1.
  pose proof (pq_top_elem pq2 y Hy) as Hy2.
  assert (y ∈ pq_c pq1) as Hy1 by by rewrite Hperm.
  assert (x ∈ pq_c pq2) as Hx2 by by rewrite <- Hperm.
  pose proof (pq_top_max pq1 x Hwf1 Hx y Hy1) as Hxy.
  pose proof (pq_top_max pq2 y Hwf2 Hy x Hx2) as Hyx.
  rewrite Hc1 in Hxy. rewrite Hc2 in Hyx. unfold jobComparator in *.
  apply Z.ltb_ge in Hxy, Hyx.
  apply (NoDup_fmap_elem profit (pq_c pq1)); [done..|lia].
Qed.

Lemma pq_rel_push (x : Job) pq1 pq2 :
  pq_rel pq1 pq2 ->
  pq_rel (pq_push (Heap:=H1) x pq1) (pq_push (Heap:=H2) x pq2).
Proof.
  intros ([Hwf1 Hc1] & [Hwf2 Hc2] & Hperm).
  split_and!; [by apply pq_push_wf|done|by apply pq_push_wf|done|].
  rewrite !pq_push_perm by done. by rewrite Hperm.
Qed.

Lemma pq_rel_pop (x : Job) pq1 pq2 :
  pq_rel pq1 pq2 -> pq_top pq1 = Some x -> pq_top pq2 = Some x ->
  pq_rel (pq_pop (Heap:=H1) pq1) (pq_pop (Heap:=H2) pq2).
Proof.
  intros ([Hwf1 Hc1] & [Hwf2 Hc2] & Hperm) Hx1 Hx2.
  destruct (pq_pop_spec (Heap:=H1) pq1 x Hwf1 Hx1) as [Hwf1' Hperm1].
  destruct (pq_pop_spec (Heap:=H2) pq2 x Hwf2 Hx2) as [Hwf2' Hperm2].
  split_and!; [done..|].
  apply (inj (x ::.)). by rewrite Hperm1, Hperm2.
Qed.

Lemma while_loop_rel (fuel : nat) (slot : Z) pq1 pq2 (result : list Job) :
  pq_rel pq1 pq2 -> NoDup (profit <$> pq_c pq1) ->
  exists slot' pq1' pq2' result',
    while_loop (Heap:=H1) fuel slot pq1 result = (slot', pq1', result') /\
    while_loop (Heap:=H2) fuel slot pq2 result = (slot', pq2', result') /\
    pq_rel pq1' pq2'.
Proof.
  revert slot pq1 pq2 result.
  induction fuel as [|fuel IH]; intros slot pq1 pq2 result Hrel Hnd; simpl.
  - by exists slot, pq1, pq2, result.
  - rewrite <- (pq_rel_size pq1 pq2 Hrel).
    destruct ((0 <? slot) && (0 <? pq_size pq1)%nat) eqn:Hcond;
      [|by exists slot, pq1, pq2, result].
    apply andb_true_iff in Hcond as [_ Hsize]. apply Nat.ltb_lt in Hsize.
    destruct (pq_top_nonempty pq1 Hsize) as [x Hx].
    destruct (pq_top_nonempty pq2) as [y Hy];
      [by rewrite <- (pq_rel_size pq1 pq2 Hrel)|].
    assert (x = y) as <- by by apply (pq_rel_top pq1 pq2).
    rewrite Hx, Hy. apply IH; [by apply (pq_rel_pop x)|].
    destruct Hrel as ([Hwf1 _] & _).
    destruct (pq_pop_spec (Heap:=H1) pq1 x Hwf1 Hx) as [_ Hperm].
    rewrite <- Hperm, fmap_cons in Hnd. by apply NoDup_cons in Hnd as [_ Hnd].
Qed.

Lemma for_loop_rel (arr : list Job) (n : nat) pq1 pq2 (result : list Job) :
  NoDup (profit <$> arr) -> (n <= length arr)%nat ->
  pq_rel pq1 pq2 -> contents_inv arr n pq1 result ->
  (for_loop (Heap:=H1) arr n pq1 result).2
  = (for_loop (Heap:=H2) arr n pq2 result).2.
Proof.
  intros Hnd. revert pq1 pq2 result.
  induction n as [|n IH]; intros pq1 pq2 result Hn Hrel Hinv; simpl; [done|].
  pose proof (contents_inv_step (Heap:=H1) arr n pq1 result Hn Hinv) as Hinv'.
  unfold loop_body in *.
  destruct (while_loop_rel (Z.to_nat (slot_available arr n))
              (slot_available arr n)
              (pq_push (Heap:=H1) (arr !!! n) pq1)
              (pq_push (Heap:=H2) (arr !!! n) pq2) result)
    as (slot' & pq1' & pq2' & result' & Heq1 & Heq2 & Hrel').
  { by apply pq_rel_push. }
  { destruct Hinv as (Hwf & _ & Hperm).
    rewrite pq_push_perm by done.
    assert (NoDup (profit <$> drop n arr)) as Hnd'.
    { apply (sublist_NoDup (profit <$> drop n arr) (profit <$> arr));
        [exact Hnd|]. apply fmap_sublist, sublist_drop. }
    rewrite (drop_S arr (arr !!! n) n) in Hnd'
      by by apply list_lookup_lookup_total_lt.
    rewrite <- Hperm, fmap_cons, fmap_app, app_comm_cons in Hnd'.
    by apply NoDup_app in Hnd' as [Hnd' _]. }
  rewrite Heq1 in Hinv' |- *. rewrite Heq2. simpl in Hinv'.
  apply IH; [lia|done..].
Qed.

End Independence.

(** ** The outputs the library's freedom allows *)

#[global] Instance not_after_dec {A : Type} (comp : A -> A -> bool) :
  RelDecision (not_after comp).
Proof. intros a b. unfold not_after. apply _. Defined.

(** The arrangements [std::sort] may leave a range in. *)
Definition sorted_permutations (l : list Job) : list (list Job) :=
  filter (StronglySorted (not_after deadComparator)) (permutations l).

(** The [result] vector the outer loop builds from a sorted array, run with
    the descending vector as the heap. *)
Definition selection (s : list Job) : list Job :=
  (for_loop (Heap:=sorted_StdHeap) s (length s) (pq_new jobComparator) []).2.

(** The vectors of selected jobs that some conforming library produces. *)
Definition candidates (arr : list Job) : list (list Job) :=
  s ← sorted_permutations arr; sorted_permutations (selection s).

Lemma sorted_permutations_elem (l s : list Job) :
  s ≡ₚ l -> StronglySorted (not_after deadComparator) s ->
  s ∈ sorted_permutations l.
Proof.
  intros Hperm Hsorted. apply list_elem_of_filter. split; [done|].
  by apply permutations_Permutation.
Qed.

Lemma pq_rel_new : pq_rel (pq_new jobComparator) (pq_new jobComparator).
Proof.
  pose proof (pq_new_wf (A:=Job) jobComparator jobComparator_swo) as Hwf.
  by split_and!.
Qed.

(** When the profits are pairwise distinct, the selected jobs are among the
    candidates whatever the library does. *)
Lemma scheduled_candidates {Sort : StdSort} {Heap : StdHeap}
    (arr : list Job) :
  NoDup (profit <$> arr) -> scheduled arr ∈ candidates arr.
Proof.
  intros Hnd. rewrite scheduled_eq. set (s := array_after arr).
  apply list_elem_of_bind. exists s. split.
  - apply sorted_permutations_elem;
      [|apply std_sort_sorted, deadComparator_swo].
    rewrite std_sort_perm by apply deadComparator_swo. unfold selection.
    rewrite (for_loop_rel Heap sorted_StdHeap s (length s)
               (pq_new jobComparator) (pq_new jobComparator) []);
      [done| |done| |].
    + unfold s. by rewrite array_after_perm.
    + apply pq_rel_new.
    + apply contents_inv_init.
  - apply sorted_permutations_elem;
      [apply array_after_perm|apply array_after_sorted].
Qed.

(** ** Rounds of the outer loop with no slot, and with one *)

Section Rounds.
Context {Heap : StdHeap}.

Lemma for_loop_S (arr : list Job) (i : nat) (pq : priority_queue Job)
    (result : list Job) :
  for_loop arr (S i) pq result
  = for_loop arr i (loop_body arr i pq result).1 (loop_body arr i pq result).2.
Proof. simpl. by destruct (loop_body arr i pq result). Qed.

Lemma loop_body_no_slot (arr : list Job) (i : nat) (pq : priority_queue Job)
    (result : list Job) :
  slot_available arr i <= 0 ->
  loop_body arr i pq result = (pq_push (arr !!! i) pq, result).
Proof.
  intros Hslot. unfold loop_body.
  by replace (Z.to_nat (slot_available arr i)) with 0%nat by lia.
Qed.

Lemma loop_body_one_slot (arr : list Job) (i : nat) (pq : priority_queue Job)
    (result : list Job) :
  slot_available arr i = 1 -> pq_wf pq ->
  exists m,
    pq_top (pq_push (arr !!! i) pq) = Some m /\
    loop_body arr i pq result
    = (pq_pop (pq_push (arr !!! i) pq), result ++ [m]).
Proof.
  intros Hslot Hwf. unfold loop_body. rewrite Hslot.
  change (Z.to_nat 1) with 1%nat. cbn [while_loop].
  assert (0 < pq_size (pq_push (arr !!! i) pq))%nat as Hsize.
  { unfold pq_size. rewrite pq_push_perm by done. simpl. lia. }
  destruct (pq_top_nonempty _ Hsize) as [m Hm]. exists m. split; [done|].
  apply Nat.ltb_lt in Hsize. by rewrite Hsize, Hm.
Qed.

End Rounds.
(** * The properties of the scheduler *)

Section SchedulerProperties.
Context {Sort : StdSort} {Heap : StdHeap}.
Implicit Types (arr : list Job).

(** C2, as the code has it: [getJobScheduling] sorts the caller's array in
    place.  The array the call leaves behind holds the jobs it held before,
    reordered by ascending deadline. *)
Theorem getJobScheduling_sorts_array arr :
  (getJobScheduling arr).1 ≡ₚ arr /\
  StronglySorted (fun a b => dead a <= dead b) (getJobScheduling arr).1.
Proof.
  rewrite getJobScheduling_eq. simpl. split; [apply array_after_perm|].
  eapply StronglySorted_weaken; [|apply array_after_sorted].
  intros a b. apply not_after_dead.
Qed.

(** C3: on an array of non-negative deadlines, the job whose identifier is
    returned at position [p] (counting from 0), that is in slot [p + 1], has
    a deadline of at least [p + 1]. *)
Theorem getJobScheduling_feasible arr (p : nat) (j : Job) :
  Forall deadline_ok arr ->
  scheduled arr !! p = Some j ->
  (getJobScheduling arr).2 !! p = Some (id j) /\ Z.of_nat p + 1 <= dead j.
Proof.
  intros Hok Hp. split.
  - rewrite getJobScheduling_eq. simpl. by rewrite list_lookup_fmap, Hp.
  - pose proof (sorted_count_le _ p j (scheduled_sorted arr) Hp) as Hcount.
    pose proof (scheduled_slots arr Hok (dead j)) as Hslots. lia.
Qed.

(** C4: on an array of non-negative deadlines, no more identifiers are
    returned than the largest deadline, nor than there are jobs; the slots
    [1 .. length] of the returned jobs are distinct and all lie within
    [1 .. max_deadline]. *)
Theorem getJobScheduling_length arr :
  Forall deadline_ok arr ->
  Z.of_nat (length (getJobScheduling arr).2) <= max_deadline arr /\
  (length (getJobScheduling arr).2 <= length arr)%nat /\
  (forall p, (p < length (getJobScheduling arr).2)%nat ->
             1 <= Z.of_nat p + 1 <= max_deadline arr).
Proof.
  intros Hok. rewrite getJobScheduling_eq. simpl. rewrite length_fmap.
  destruct (scheduled_contents arr) as [rest Hperm].
  assert (Z.of_nat (length (scheduled arr)) <= max_deadline arr) as Hmax;
    [|split_and!; [done| |intros p Hp; lia]].
  - pose proof (scheduled_slots arr Hok (max_deadline arr)) as Hslots.
    pose proof (max_deadline_nonneg arr) as Hnonneg.
    rewrite count_le_all in Hslots; [lia|].
    apply Forall_forall. intros j Hj. apply max_deadline_bound.
    rewrite <- Hperm. apply elem_of_app. by left.
  - apply Permutation_length in Hperm. rewrite length_app in Hperm. lia.
Qed.

(** C8: the identifiers are returned by ascending deadline of their jobs:
    of two returned jobs, the one returned first has no greater a
    deadline. *)
Theorem getJobScheduling_ascending arr (p q : nat) (j k : Job) :
  (p < q)%nat -> scheduled arr !! p = Some j -> scheduled arr !! q = Some k ->
  (getJobScheduling arr).2 !! p = Some (id j) /\
  (getJobScheduling arr).2 !! q = Some (id k) /\
  dead j <= dead k.
Proof.
  intros Hpq Hp Hq. rewrite getJobScheduling_eq. simpl.
  rewrite !list_lookup_fmap, Hp, Hq. split_and!; [done..|].
  apply not_after_dead.
  apply (StronglySorted_lookup _ _ p q j k (scheduled_sorted arr)); done.
Qed.

(** C9: an empty array of jobs yields an empty vector of identifiers. *)
Theorem getJobScheduling_empty : getJobScheduling [] = ([], []).
Proof.
  rewrite getJobScheduling_eq. rewrite scheduled_eq.
  assert (array_after [] = []) as ->.
  { apply Permutation_nil_r, array_after_perm. }
  simpl. f_equal. change (@nil ascii) with (id <$> @nil Job). f_equal.
  apply Permutation_nil_r, std_sort_perm, deadComparator_swo.
Qed.

(** C10: the returned identifiers are those of distinct jobs of the input:
    an injective map [f] sends every position of the result to a position of
    the input array that holds the job returned there. *)
Theorem getJobScheduling_injective_selection arr :
  exists f : nat -> nat,
    Inj (=) (=) f /\
    forall p, (p < length (getJobScheduling arr).2)%nat ->
      exists j, arr !! f p = Some j /\ scheduled arr !! p = Some j /\
                (getJobScheduling arr).2 !! p = Some (id j).
Proof.
  destruct (scheduled_contents arr) as [rest Hperm].
  apply Permutation_inj in Hperm as [_ (f & Hinj & Hf)].
  exists f. split; [done|]. intros p.
  rewrite getJobScheduling_eq. simpl. rewrite length_fmap. intros Hp.
  destruct (lookup_lt_is_Some_2 _ _ Hp) as [j Hj].
  exists j. split_and!; [|done|by rewrite list_lookup_fmap, Hj].
  rewrite <- Hf. by rewrite lookup_app_l.
Qed.

(** C1, as the code has it: the count of fresh slots is the job's own
    deadline for the first job of the sorted array, the one with the
    smallest deadline and the last one the loop reaches; for every other job
    it is its deadline minus the deadline of the job before it in sorted
    order, which is never negative. *)
Theorem slot_available_sorted arr :
  Forall deadline_ok arr ->
  (forall first,
     array_after arr !! 0%nat = Some first ->
     slot_available (array_after arr) 0 = dead first /\
     forall k, k ∈ arr -> dead first <= dead k) /\
  (forall i prev cur,
     array_after arr !! i = Some prev ->
     array_after arr !! S i = Some cur ->
     slot_available (array_after arr) (S i) = dead cur - dead prev /\
     0 <= dead cur - dead prev).
Proof.
  intros Hok.
  assert (Forall deadline_ok (array_after arr)) as Hok'
    by by rewrite array_after_perm.
  pose proof (array_after_sorted arr) as Hsorted. split.
  - intros first Hfirst. split.
    + unfold slot_available. simpl.
      by rewrite (list_lookup_total_correct _ _ _ Hfirst).
    + intros k Hk. apply (sorted_drop_bound (array_after arr) 0); [done..|].
      by rewrite drop_0, array_after_perm.
  - intros i prev cur Hprev Hcur.
    destruct (slot_available_floor (array_after arr) Hsorted Hok' (S i))
      as [Hslot Hfloor]; [by eapply lookup_lt_Some|].
    simpl in Hslot, Hfloor.
    rewrite (list_lookup_total_correct _ _ _ Hprev) in Hslot, Hfloor.
    rewrite (list_lookup_total_correct _ _ _ Hcur) in Hslot, Hfloor.
    split; [done|lia].
Qed.

(** C5: the second array of [tests()] yields [x, y, w], jobs that earn 140
    together, whichever way the library orders equivalent jobs. *)
Theorem getJobScheduling_jobs2 :
  (getJobScheduling jobs2).2 = ["x"; "y"; "w"]%char /\
  scheduled jobs2 = [mkJob "x" 1 50; mkJob "y" 2 60; mkJob "w" 3 30] /\
  total_profit (scheduled jobs2) = 140.
Proof.
  assert (scheduled jobs2 = [mkJob "x" 1 50; mkJob "y" 2 60; mkJob "w" 3 30])
    as Hsched.
  { assert (NoDup (profit <$> jobs2)) as Hnd
      by (apply (bool_decide_unpack _); by vm_compute).
    pose proof (scheduled_candidates jobs2 Hnd) as Hin.
    assert (Forall (fun r => r = [mkJob "x" 1 50; mkJob "y" 2 60; mkJob "w" 3 30])
              (candidates jobs2)) as Hall
      by (apply (bool_decide_unpack _); by vm_compute).
    rewrite Forall_forall in Hall. by apply Hall. }
  rewrite getJobScheduling_eq, Hsched. by split_and!.
Qed.

(** C6: the first array of [tests()] yields the jobs [a], [c] and [e], which
    earn 142 together: [e], of deadline 3, comes last, and [a] and [c], both
    of deadline 2, come before it in the order the library's [sort] leaves
    them in. *)
Theorem getJobScheduling_jobs1 :
  ((getJobScheduling jobs1).2 = ["a"; "c"; "e"]%char \/
   (getJobScheduling jobs1).2 = ["c"; "a"; "e"]%char) /\
  scheduled jobs1 ≡ₚ [mkJob "a" 2 100; mkJob "c" 2 27; mkJob "e" 3 15] /\
  (getJobScheduling jobs1).2 = id <$> scheduled jobs1 /\
  StronglySorted (fun j k => dead j <= dead k) (scheduled jobs1) /\
  total_profit (scheduled jobs1) = 142.
Proof.
  assert (scheduled jobs1 = [mkJob "a" 2 100; mkJob "c" 2 27; mkJob "e" 3 15] \/
          scheduled jobs1 = [mkJob "c" 2 27; mkJob "a" 2 100; mkJob "e" 3 15])
    as Hsched.
  { assert (NoDup (profit <$> jobs1)) as Hnd
      by (apply (bool_decide_unpack _); by vm_compute).
    pose proof (scheduled_candidates jobs1 Hnd) as Hin.
    assert (Forall (fun r =>
                      r = [mkJob "a" 2 100; mkJob "c" 2 27; mkJob "e" 3 15] \/
                      r = [mkJob "c" 2 27; mkJob "a" 2 100; mkJob "e" 3 15])
              (candidates jobs1)) as Hall
      by (apply (bool_decide_unpack _); by vm_compute).
    rewrite Forall_forall in Hall. by apply Hall. }
  rewrite getJobScheduling_eq. simpl.
  assert (StronglySorted (fun j k => dead j <= dead k) (scheduled jobs1))
    as Hsorted.
  { eapply StronglySorted_weaken; [|apply scheduled_sorted].
    intros a b. apply not_after_dead. }
  destruct Hsched as [Hsched|Hsched]; rewrite Hsched in Hsorted |- *.
  - split_and!; [by left|done..].
  - split_and!; [by right|apply Permutation_swap|done..].
Qed.

(** C7: of three jobs that all have deadline 1, exactly one identifier is
    returned, that of a job of greatest profit.  The rounds of the other two
    jobs find no slot: the deadline difference there is zero. *)
Theorem getJobScheduling_three_deadline_one (j0 j1 j2 : Job) :
  dead j0 = 1 -> dead j1 = 1 -> dead j2 = 1 ->
  exists m,
    m ∈ [j0; j1; j2] /\
    (forall k, k ∈ [j0; j1; j2] -> profit k <= profit m) /\
    (getJobScheduling [j0; j1; j2]).2 = [id m] /\
    slot_available (array_after [j0; j1; j2]) 2 = 0 /\
    slot_available (array_after [j0; j1; j2]) 1 = 0 /\
    slot_available (array_after [j0; j1; j2]) 0 = 1.
Proof.
  intros Hd0 Hd1 Hd2. set (arr := [j0; j1; j2]).
  assert (Forall (fun j => dead j = 1) arr) as Hdead by by repeat constructor.
  rewrite getJobScheduling_eq, scheduled_eq. simpl.
  pose proof (array_after_perm arr) as Hperm.
  rewrite <- Hperm in Hdead.
  pose proof (Permutation_length Hperm) as Hlen.
  destruct (array_after arr) as [|a [|b [|c [|? s]]]] eqn:Hs; try done.
  clear Hlen.
  apply Forall_cons in Hdead as [Ha Hdead].
  apply Forall_cons in Hdead as [Hb Hdead].
  apply Forall_cons in Hdead as [Hc _].
  assert (slot_available [a; b; c] 2 = 0) as Hslot2.
  { unfold slot_available, int_sub. simpl. rewrite Hb, Hc. done. }
  assert (slot_available [a; b; c] 1 = 0) as Hslot1.
  { unfold slot_available, int_sub. simpl. rewrite Ha, Hb. done. }
  assert (slot_available [a; b; c] 0 = 1) as Hslot0.
  { unfold slot_available. simpl. done. }
  pose proof (pq_new_wf (A:=Job) jobComparator jobComparator_swo) as Hwf0.
  change (length [a; b; c]) with 3%nat.
  rewrite for_loop_S, loop_body_no_slot by lia. cbn [fst snd].
  rewrite for_loop_S, loop_body_no_slot by lia. cbn [fst snd].
  set (pq2 := pq_push ([a; b; c] !!! 1%nat) (pq_push ([a; b; c] !!! 2%nat)
                                                     (pq_new jobComparator))).
  assert (pq_wf pq2) as Hwf2 by by do 2 apply pq_push_wf.
  rewrite for_loop_S.
  destruct (loop_body_one_slot [a; b; c] 0 pq2 [] Hslot0 Hwf2)
    as (m & Hm & ->).
  simpl.
  set (pq3 := pq_push a pq2) in *.
  assert (pq_wf pq3) as Hwf3 by by apply pq_push_wf.
  assert (pq_c pq3 ≡ₚ arr) as Hpq3.
  { unfold pq3, pq2. rewrite !pq_push_perm by (try done; by apply pq_push_wf).
    simpl. by rewrite <- Hperm. }
  exists m. split_and!; try done.
  - fold arr. rewrite <- Hpq3. by apply pq_top_elem.
  - intros k Hk. fold arr in Hk. rewrite <- Hpq3 in Hk.
    pose proof (pq_top_max pq3 m Hwf3 Hm k Hk) as Hmax.
    change (pq_comp pq3) with jobComparator in Hmax.
    unfold jobComparator in Hmax. by apply Z.ltb_ge in Hmax.
  - assert (std_sort deadComparator [m] = [m]) as ->; [|done].
    apply Permutation_singleton_r, std_sort_perm, deadComparator_swo.
Qed.

End SchedulerProperties.

(** * The code on concrete arrays

    The statements below run the scheduler with insertion sort as
    [std::sort] and the descending vector as the heap. *)

(** The assertions of [tests()] hold. *)
Example tests_assertions :
  (getJobScheduling jobs1).2 = ["a"; "c"; "e"]%char /\
  (getJobScheduling jobs2).2 = ["x"; "y"; "w"]%char.
Proof. by vm_compute. Qed.

(** The second example of the file's header: [c, a]. *)
Example header_example :
  (getJobScheduling
     [mkJob "a" 4 20; mkJob "b" 1 10; mkJob "c" 1 40; mkJob "d" 1 30]).2
  = ["c"; "a"]%char.
Proof. by vm_compute. Qed.

(** Deadlines below zero are outside the problem (the least deadline a job
    can have is 1), and the guarantees on slots do not extend to them: here a
    job of deadline -3 is returned. *)
Example negative_deadlines :
  scheduled [mkJob "a" (-5) 1; mkJob "b" (-3) 1] = [mkJob "b" (-3) 1].
Proof. by vm_compute. Qed.

(** With a sort that orders equivalent jobs the other way round, the first
    array of [tests()] yields [c, a, e], the order the file's header gives. *)
Example tie_break_other_order :
  (getJobScheduling (Sort:=reversing_StdSort) jobs1).2 = ["c"; "a"; "e"]%char.
Proof. by vm_compute. Qed.

(** Whatever the library, the round of the last job of the second array of
    [tests()] counts one fresh slot, and the first array of [tests()] does
    not come back as it was passed. *)
Lemma slot_available_jobs2_last {Sort : StdSort} {Heap : StdHeap} :
  slot_available (array_after jobs2) 3 = 1.
Proof.
  assert (Forall (fun s => slot_available s 3 = 1) (sorted_permutations jobs2))
    as Hall by (apply (bool_decide_unpack _); by vm_compute).
  rewrite Forall_forall in Hall. apply Hall.
  apply sorted_permutations_elem;
    [apply array_after_perm|apply array_after_sorted].
Qed.

Lemma array_after_jobs1_reordered {Sort : StdSort} {Heap : StdHeap} :
  array_after jobs1 <> jobs1.
Proof.
  intros Heq. pose proof (array_after_sorted jobs1) as Hsorted.
  rewrite Heq in Hsorted. revert Hsorted.
  apply (bool_decide_unpack _). by vm_compute.
Qed.

(** C1, as the specification words it, fails on the second array of
    [tests()]: the last job of the sorted array is [w], whose deadline 3 is
    the largest, and the count of fresh slots in its round is 1, not 3. *)
Lemma slot_available_last_counterexample :
  array_after jobs2 !! 3%nat = Some (mkJob "w" 3 30) /\
  length (array_after jobs2) = 4%nat /\
  slot_available (array_after jobs2) 3 = 1 /\
  ~ slot_available (array_after jobs2) 3 = dead (mkJob "w" 3 30).
Proof. by vm_compute. Qed.

Lemma slot_available_sorted_witness :
  Forall deadline_ok jobs2 /\
  slot_available (array_after jobs2) 0 = dead (mkJob "x" 1 50) /\
  slot_available (array_after jobs2) 3
  = dead (mkJob "w" 3 30) - dead (mkJob "z" 2 20).
Proof.
  assert (Forall deadline_ok jobs2) as Hok
    by (apply (bool_decide_unpack _); by vm_compute).
  destruct (slot_available_sorted jobs2 Hok) as [Hfirst Hgap].
  split_and!.
  - exact Hok.
  - apply (Hfirst (mkJob "x" 1 50)). reflexivity.
  - apply (Hgap 2%nat (mkJob "z" 2 20) (mkJob "w" 3 30)); reflexivity.
Defined.

(** C2, as the specification words it, fails on the first array of
    [tests()]: the call leaves the caller's array sorted by deadline. *)
Lemma getJobScheduling_mutates_counterexample :
  (getJobScheduling jobs1).1
  = [mkJob "b" 1 19; mkJob "d" 1 25; mkJob "a" 2 100; mkJob "c" 2 27;
     mkJob "e" 3 15] /\
  ~ (getJobScheduling jobs1).1 = jobs1.
Proof. by vm_compute. Qed.

Lemma getJobScheduling_feasible_witness :
  Forall deadline_ok jobs1 /\
  scheduled jobs1 !! 2%nat = Some (mkJob "e" 3 15) /\
  (getJobScheduling jobs1).2 !! 2%nat = Some (id (mkJob "e" 3 15)) /\
  Z.of_nat 2 + 1 <= dead (mkJob "e" 3 15).
Proof.
  assert (Forall deadline_ok jobs1) as Hok
    by (apply (bool_decide_unpack _); by vm_compute).
  assert (scheduled jobs1 !! 2%nat = Some (mkJob "e" 3 15)) as Hp
    by reflexivity.
  split_and!; [exact Hok|exact Hp|..];
    apply (getJobScheduling_feasible jobs1 2 (mkJob "e" 3 15) Hok Hp).
Defined.

Lemma getJobScheduling_length_witness :
  Forall deadline_ok jobs1 /\
  Z.of_nat (length (getJobScheduling jobs1).2) <= max_deadline jobs1 /\
  (length (getJobScheduling jobs1).2 <= length jobs1)%nat /\
  (forall p, (p < length (getJobScheduling jobs1).2)%nat ->
             1 <= Z.of_nat p + 1 <= max_deadline jobs1).
Proof.
  assert (Forall deadline_ok jobs1) as Hok
    by (apply (bool_decide_unpack _); by vm_compute).
  split; [exact Hok|]. apply (getJobScheduling_length jobs1 Hok).
Defined.

Lemma getJobScheduling_three_deadline_one_witness :
  exists m,
    m ∈ [mkJob "p" 1 10; mkJob "q" 1 40; mkJob "r" 1 30] /\
    (forall k, k ∈ [mkJob "p" 1 10; mkJob "q" 1 40; mkJob "r" 1 30] ->
               profit k <= profit m) /\
    (getJobScheduling [mkJob "p" 1 10; mkJob "q" 1 40; mkJob "r" 1 30]).2
    = [id m] /\
    slot_available
      (array_after [mkJob "p" 1 10; mkJob "q" 1 40; mkJob "r" 1 30]) 2 = 0 /\
    slot_available
      (array_after [mkJob "p" 1 10; mkJob "q" 1 40; mkJob "r" 1 30]) 1 = 0 /\
    slot_available
      (array_after [mkJob "p" 1 10; mkJob "q" 1 40; mkJob "r" 1 30]) 0 = 1.
Proof.
  apply (getJobScheduling_three_deadline_one
           (mkJob "p" 1 10) (mkJob "q" 1 40) (mkJob "r" 1 30));
    reflexivity.
Defined.

Lemma getJobScheduling_ascending_witness :
  (0 < 2)%nat /\
  scheduled jobs1 !! 0%nat = Some (mkJob "a" 2 100) /\
  scheduled jobs1 !! 2%nat = Some (mkJob "e" 3 15) /\
  (getJobScheduling jobs1).2 !! 0%nat = Some (id (mkJob "a" 2 100)) /\
  (getJobScheduling jobs1).2 !! 2%nat = Some (id (mkJob "e" 3 15)) /\
  dead (mkJob "a" 2 100) <= dead (mkJob "e" 3 15).
Proof.
  assert (0 < 2)%nat as Hpq by lia.
  assert (scheduled jobs1 !! 0%nat = Some (mkJob "a" 2 100)) as Hp
    by reflexivity.
  assert (scheduled jobs1 !! 2%nat = Some (mkJob "e" 3 15)) as Hq
    by reflexivity.
  split_and!; [exact Hpq|exact Hp|exact Hq|..];
    apply (getJobScheduling_ascending jobs1 0 2 _ _ Hpq Hp Hq).
Defined.

(** * Further properties of the scheduler *)

(** ** What a round of the outer loop does, exactly *)

(** Each job of [popped], in the order the jobs were taken off the queue,
    has at least the profit of every job taken after it and of every job
    still in the queue [rest]. *)
Fixpoint pops_dominate (popped rest : list Job) : Prop :=
  match popped with
  | [] => True
  | p :: popped' =>
      (forall x, x ∈ popped' ++ rest -> profit x <= profit p) /\
      pops_dominate popped' rest
  end.

Section ExactRounds.
Context {Heap : StdHeap}.

(** The inner loop takes jobs of greatest profit off the queue until the
    slots are used up or the queue is empty. *)
Lemma while_loop_exact (fuel : nat) (slot : Z) (pq : priority_queue Job)
    (result : list Job) :
  pq_wf pq -> pq_comp pq = jobComparator ->
  0 <= slot <= INT_MAX -> (Z.to_nat slot <= fuel)%nat ->
  exists pq' popped,
    while_loop fuel slot pq result
    = (slot - Z.of_nat (length popped), pq', result ++ popped) /\
    pq_wf pq' /\ pq_comp pq' = jobComparator /\
    popped ++ pq_c pq' ≡ₚ pq_c pq /\
    (Z.of_nat (length popped) = slot \/ pq_c pq' = []) /\
    Z.of_nat (length popped) <= slot /\
    pops_dominate popped (pq_c pq').
Proof.
  revert slot pq result.
  induction fuel as [|fuel IH]; intros slot pq result Hwf Hcomp Hslot Hfuel.
  - exists pq, []. simpl. rewrite Z.sub_0_r, app_nil_r.
    split_and!; try done; [left|]; lia.
  - simpl. destruct ((0 <? slot) && (0 <? pq_size pq)%nat) eqn:Hcond.
    + apply andb_true_iff in Hcond as [Hpos Hsize].
      apply Z.ltb_lt in Hpos. apply Nat.ltb_lt in Hsize.
      destruct (pq_top_nonempty pq Hsize) as [m Hm]. rewrite Hm.
      destruct (pq_pop_spec pq m Hwf Hm) as [Hwf' Hperm].
      assert (int_sub slot 1 = slot - 1) as ->.
      { apply int_sub_exact. unfold int_range, INT_MIN, INT_MAX in *. lia. }
      destruct (IH (slot - 1) (pq_pop pq) (result ++ [m]))
        as (pq' & popped & Heq & Hwf'' & Hcomp' & Hperm' & Hexit & Hlen & Hdom);
        [done|done|lia|lia|].
      exists pq', (m :: popped). rewrite Heq, <- app_assoc. simpl length.
      split_and!; try done.
      * f_equal. f_equal. lia.
      * simpl. by rewrite Hperm'.
      * destruct Hexit as [Hexit|Hexit]; [left; lia|by right].
      * lia.
      * split; [|done]. intros x Hx. rewrite Hperm' in Hx.
        assert (x ∈ pq_c pq) as Hx'.
        { rewrite <- Hperm. by apply list_elem_of_further. }
        pose proof (pq_top_max pq m Hwf Hm x Hx') as Hmax.
        rewrite Hcomp in Hmax. unfold jobComparator in Hmax.
        by apply Z.ltb_ge in Hmax.
    + exists pq, []. simpl. rewrite Z.sub_0_r, app_nil_r.
      split_and!; try done; [|lia].
      apply andb_false_iff in Hcond as [Hcond|Hcond].
      * apply Z.ltb_ge in Hcond. left. lia.
      * apply Nat.ltb_ge in Hcond. right. unfold pq_size in Hcond.
        destruct (pq_c pq); [done|simpl in Hcond; lia].
Qed.

(** A round on a sorted array of admissible deadlines: job [i] joins the
    queue, and the [dead - floor] slots of the round go to jobs of greatest
    profit, as far as the queue lasts. *)
Lemma loop_body_exact (arr : list Job) (i : nat) (pq : priority_queue Job)
    (result : list Job) :
  StronglySorted (not_after deadComparator) arr -> Forall deadline_ok arr ->
  (i < length arr)%nat -> pq_wf pq -> pq_comp pq = jobComparator ->
  exists pq' popped,
    loop_body arr i pq result = (pq', result ++ popped) /\
    pq_wf pq' /\ pq_comp pq' = jobComparator /\
    popped ++ pq_c pq' ≡ₚ arr !!! i :: pq_c pq /\
    (Z.of_nat (length popped) = dead (arr !!! i) - slots_floor arr i \/
     pq_c pq' = []) /\
    Z.of_nat (length popped) <= dead (arr !!! i) - slots_floor arr i /\
    pops_dominate popped (pq_c pq').
Proof.
  intros Hsorted Hok Hi Hwf Hcomp. unfold loop_body.
  destruct (slot_available_floor arr Hsorted Hok i Hi) as [Hslot Hfloor].
  pose proof (list_lookup_lookup_total_lt arr i Hi) as Hai.
  pose proof (Forall_lookup_1 _ _ _ _ Hok Hai) as Hoki.
  unfold deadline_ok in Hoki.
  assert (0 <= slots_floor arr i) as Hfloor0.
  { destruct i as [|i]; simpl; [lia|].
    assert (i < length arr)%nat as Hi' by lia.
    pose proof (list_lookup_lookup_total_lt arr i Hi') as Hap.
    pose proof (Forall_lookup_1 _ _ _ _ Hok Hap) as Hokp.
    unfold deadline_ok in Hokp. lia. }
  destruct (while_loop_exact (Z.to_nat (slot_available arr i))
              (slot_available arr i) (pq_push (arr !!! i) pq) result)
    as (pq' & popped & -> & Hwf' & Hcomp' & Hperm & Hexit & Hlen & Hdom);
    [by apply pq_push_wf|done|lia|done|].
  exists pq', popped. rewrite <- Hslot.
  split_and!; try done. by rewrite Hperm, pq_push_perm.
Qed.

End ExactRounds.

(** ** Selections that meet their deadlines *)

(** A selection is feasible when its jobs can be given distinct time slots,
    each job a slot between 1 and its deadline. *)
Definition feasible (F : list Job) : Prop :=
  exists plan : list (Job * Z),
    F ≡ₚ plan.*1 /\ NoDup plan.*2 /\
    Forall (fun js => 1 <= js.2 <= dead js.1) plan.

(** For every time [t], no more than [t] jobs are due by [t]. *)
Definition hall (F : list Job) : Prop :=
  forall t, Z.of_nat (count_le t F) <= Z.max 0 t.

(** The jobs of [G] can all be run in the slots [1 .. tau]. *)
Definition fits (tau : Z) (G : list Job) : Prop :=
  (forall t, t < tau -> Z.of_nat (count_le t G) <= Z.max 0 t) /\
  Z.of_nat (length G) <= tau.

(** The sum of the weights [w] of the jobs of a selection. *)
Definition weight (w : Job -> Z) (l : list Job) : Z :=
  foldr (fun j total => w j + total) 0 l.

Lemma count_le_cons (t : Z) (j : Job) (l : list Job) :
  count_le t (j :: l)
  = ((if decide (dead j <= t)%Z then 1 else 0) + count_le t l)%nat.
Proof.
  unfold count_le. destruct (decide (dead j <= t)).
  - by rewrite filter_cons_True.
  - by rewrite filter_cons_False.
Qed.

Lemma weight_app (w : Job -> Z) (l1 l2 : list Job) :
  weight w (l1 ++ l2) = weight w l1 + weight w l2.
Proof. induction l1 as [|j l1 IH]; simpl; lia. Qed.

Lemma weight_perm (w : Job -> Z) (l1 l2 : list Job) :
  l1 ≡ₚ l2 -> weight w l1 = weight w l2.
Proof. induction 1; simpl; lia. Qed.

Lemma weight_one (l : list Job) : weight (fun _ => 1) l = Z.of_nat (length l).
Proof. induction l as [|j l IH]; simpl length; simpl weight; lia. Qed.

Lemma feasible_hall (F : list Job) : feasible F -> hall F.
Proof.
  intros (plan & Hperm & Hnd & Hplan) t.
  rewrite (count_le_perm t _ _ Hperm). clear F Hperm.
  assert (exists slots,
             slots `sublist_of` plan.*2 /\
             length slots = count_le t plan.*1 /\
             Forall (fun s => 1 <= s <= t) slots) as (slots & Hsub & <- & Hin).
  { clear Hnd. induction Hplan as [|[j s] plan Hjs _ IH].
    - exists []. by split_and!.
    - destruct IH as (slots & Hsub & Hlen & Hin). simpl in Hjs.
      rewrite !fmap_cons, count_le_cons. simpl.
      destruct (decide (dead j <= t)).
      + exists (s :: slots). split_and!.
        * by apply sublist_skip.
        * simpl. by rewrite Hlen.
        * constructor; [lia|done].
      + exists slots. split_and!; [by apply sublist_cons|done..]. }
  pose proof (sublist_NoDup _ _ Hnd Hsub) as Hnd'.
  assert (slots ⊆+ seqZ 1 t) as Hincl.
  { apply NoDup_submseteq; [done|]. intros s Hs.
    rewrite Forall_forall in Hin. apply elem_of_seqZ. specialize (Hin s Hs). lia. }
  apply submseteq_length in Hincl. rewrite length_seqZ in Hincl. lia.
Qed.

Lemma fits_remove (tau : Z) (G G0 : list Job) (h : Job) :
  fits tau G -> G ≡ₚ h :: G0 -> fits (tau - 1) G0.
Proof.
  intros [Hhall Hlen] Hperm. split.
  - intros t Ht. specialize (Hhall t ltac:(lia)).
    rewrite (count_le_perm t _ _ Hperm), count_le_cons in Hhall. lia.
  - apply Permutation_length in Hperm. simpl in Hperm. lia.
Qed.

Lemma fits_lower (tau tau' : Z) (G : list Job) :
  fits tau G -> 0 <= tau' <= tau -> Forall (fun h => dead h <= tau') G ->
  fits tau' G.
Proof.
  intros [Hhall Hlen] Htau Hdead. split.
  - intros t Ht. apply Hhall. lia.
  - destruct (decide (tau' = tau)) as [->|Hne]; [done|].
    specialize (Hhall tau' ltac:(lia)).
    rewrite count_le_all in Hhall by done. lia.
Qed.

Section Ahead.
Variable w : Job -> Z.
Hypothesis w_monotone : forall x y, profit x <= profit y -> w x <= w y.
Variable F : list Job.

(** The loop has not fallen behind the selection [F]: what it has earned so
    far, [earned], together with some jobs [G] that are still available and
    fit into the slots [1 .. tau] that are left, weighs at least as much. *)
Definition ahead (tau earned : Z) (avail : list Job) : Prop :=
  exists G, G ⊆+ avail /\ fits tau G /\ weight w F <= earned + weight w G.

Lemma ahead_pop (tau earned : Z) (avail avail' : list Job) (g : Job) :
  ahead tau earned avail -> avail ≡ₚ g :: avail' ->
  1 <= tau -> 0 <= w g ->
  (forall h, h ∈ avail -> tau <= dead h -> w h <= w g) ->
  ahead (tau - 1) (earned + w g) avail'.
Proof.
  intros (G & Hsub & Hfits & Hw) Hperm Htau Hwg Hdom.
  assert (forall h G0, G ≡ₚ h :: G0 -> G0 ⊆+ avail' -> w h <= w g ->
                       ahead (tau - 1) (earned + w g) avail') as Hswap.
  { intros h G0 HG Hsub0 Hh. exists G0. split_and!; [done| |].
    - by apply (fits_remove tau G G0 h).
    - rewrite (weight_perm w _ _ HG) in Hw. simpl in Hw. lia. }
  pose proof Hsub as Hsub'. rewrite Hperm in Hsub'.
  apply submseteq_cons_r in Hsub' as [Hsub'|(G0 & HG & Hsub0)].
  - destruct (decide (Exists (fun h => tau <= dead h) G)) as [Hex|Hnex].
    + apply Exists_exists in Hex as (h & Hh & Hdh).
      pose proof Hh as HhG. apply elem_of_Permutation in Hh as [G0 HG].
      apply (Hswap h G0 HG).
      * transitivity G; [|done]. rewrite HG. by apply submseteq_cons.
      * apply Hdom; [|done]. by apply (elem_of_submseteq G).
    + exists G. split_and!; [done| |lia].
      apply (fits_lower tau); [done|lia|].
      apply Forall_forall. intros h Hh.
      destruct (decide (dead h <= tau - 1)) as [|Hgt]; [done|].
      exfalso. apply Hnex. apply Exists_exists. exists h. split; [done|lia].
  - apply (Hswap g G0 HG Hsub0). lia.
Qed.

Lemma ahead_skip (tau tau' earned : Z) (avail : list Job) :
  ahead tau earned avail -> 0 <= tau' <= tau ->
  Forall (fun h => dead h <= tau') avail ->
  ahead tau' earned avail.
Proof.
  intros (G & Hsub & Hfits & Hw) Htau Hdead. exists G. split_and!; [done| |done].
  apply (fits_lower tau); [done..|].
  apply Forall_forall. intros h Hh. rewrite Forall_forall in Hdead.
  apply Hdead. by apply (elem_of_submseteq G).
Qed.

Lemma ahead_perm (tau earned : Z) (avail avail' : list Job) :
  avail ≡ₚ avail' -> ahead tau earned avail -> ahead tau earned avail'.
Proof.
  intros Hperm (G & Hsub & Hfits & Hw). exists G. by rewrite <- Hperm.
Qed.

(** A round's pops, one slot after the other. *)
Lemma ahead_pops (popped rest later : list Job) (tau earned : Z) :
  pops_dominate popped rest ->
  Forall (fun p => 0 <= w p) popped ->
  Forall (fun h => dead h <= tau - Z.of_nat (length popped)) later ->
  0 <= tau - Z.of_nat (length popped) ->
  ahead tau earned (popped ++ rest ++ later) ->
  ahead (tau - Z.of_nat (length popped)) (earned + weight w popped)
    (rest ++ later).
Proof.
  revert tau earned.
  induction popped as [|p popped IH]; intros tau earned Hdom Hw Hlater Htau Hahead.
  - simpl in *. by rewrite Z.sub_0_r, Z.add_0_r.
  - destruct Hdom as [Hp Hdom]. apply Forall_cons in Hw as [Hwp Hw].
    simpl length in *. simpl weight.
    replace (tau - Z.of_nat (S (length popped)))
      with (tau - 1 - Z.of_nat (length popped)) in * by lia.
    replace (earned + (w p + weight w popped))
      with (earned + w p + weight w popped) by lia.
    apply IH; [done..|].
    apply (ahead_pop tau earned _ _ p Hahead); [done|lia|done|].
    intros h Hh Hdh. simpl in Hh.
    apply elem_of_cons in Hh as [->|Hh]; [lia|].
    rewrite app_assoc in Hh. apply elem_of_app in Hh as [Hh|Hh].
    + apply w_monotone. by apply Hp.
    + rewrite Forall_forall in Hlater. specialize (Hlater h Hh). lia.
Qed.

End Ahead.

Lemma slots_floor_nonneg (arr : list Job) (n : nat) :
  Forall deadline_ok arr -> (n <= length arr)%nat -> 0 <= slots_floor arr n.
Proof.
  intros Hok Hn. destruct n as [|i]; simpl; [lia|].
  assert (i < length arr)%nat as Hi by lia.
  pose proof (list_lookup_lookup_total_lt arr i Hi) as Hai.
  pose proof (Forall_lookup_1 _ _ _ _ Hok Hai) as Hoki.
  unfold deadline_ok in Hoki. lia.
Qed.

Lemma sorted_take_bound (arr : list Job) (n : nat) (h : Job) :
  StronglySorted (not_after deadComparator) arr -> (n <= length arr)%nat ->
  h ∈ take n arr -> dead h <= slots_floor arr n.
Proof.
  intros Hsorted Hn Hh. apply list_elem_of_lookup in Hh as [k Hk].
  apply lookup_take_Some in Hk as [Hk Hlt].
  destruct n as [|i]; [lia|]. simpl.
  assert (i < length arr)%nat as Hi by lia.
  pose proof (list_lookup_lookup_total_lt arr i Hi) as Hai.
  destruct (decide (k = i)) as [->|Hne].
  - rewrite Hai in Hk. injection Hk as <-. lia.
  - apply not_after_dead.
    apply (StronglySorted_lookup _ arr k i); [done|lia|done..].
Qed.

Section AheadLoop.
Context {Heap : StdHeap}.
Variable arr : list Job.
Hypothesis arr_sorted : StronglySorted (not_after deadComparator) arr.
Hypothesis arr_ok : Forall deadline_ok arr.
Variable w : Job -> Z.
Hypothesis w_monotone : forall x y, profit x <= profit y -> w x <= w y.
Hypothesis w_nonneg : forall j, j ∈ arr -> 0 <= w j.
Variable F : list Job.

(** Before round [n - 1] the loop is not behind [F]: the slots above the
    floor are handed out, and the jobs still available are those in the queue
    and those the loop has yet to reach. *)
Definition ahead_inv (n : nat) (pq : priority_queue Job)
    (result : list Job) : Prop :=
  contents_inv arr n pq result /\
  ahead w F (slots_floor arr n) (weight w result) (pq_c pq ++ take n arr).

Lemma ahead_inv_init :
  F ⊆+ arr -> hall F -> ahead_inv (length arr) (pq_new jobComparator) [].
Proof.
  intros Hsub Hhall. split; [apply contents_inv_init|].
  simpl. rewrite firstn_all. exists F. split_and!; [done| |simpl; lia].
  pose proof (slots_floor_nonneg arr (length arr) arr_ok (Nat.le_refl _))
    as Hfloor.
  split; [intros t _; apply Hhall|].
  specialize (Hhall (slots_floor arr (length arr))).
  rewrite count_le_all in Hhall; [lia|].
  apply Forall_forall. intros h Hh.
  apply sorted_take_bound; [done..|].
  rewrite firstn_all. by apply (elem_of_submseteq F).
Qed.

Lemma ahead_inv_step (i : nat) (pq : priority_queue Job)
    (result : list Job) :
  (i < length arr)%nat -> ahead_inv (S i) pq result ->
  ahead_inv i (loop_body arr i pq result).1 (loop_body arr i pq result).2.
Proof.
  intros Hi [Hcontents Hahead].
  pose proof (contents_inv_step arr i pq result Hi Hcontents) as Hcontents'.
  destruct Hcontents as (Hwf & Hcomp & Hperm).
  destruct (loop_body_exact arr i pq result arr_sorted arr_ok Hi Hwf Hcomp)
    as (pq' & popped & Heq & Hwf' & Hcomp' & Hperm' & Hexit & Hlen & Hdom).
  rewrite Heq in Hcontents' |- *. simpl in Hcontents' |- *.
  split; [done|].
  pose proof (list_lookup_lookup_total_lt arr i Hi) as Hai.
  pose proof (slots_floor_nonneg arr i arr_ok ltac:(lia)) as Hfloor.
  simpl in Hahead.
  assert (ahead w F (dead (arr !!! i) - Z.of_nat (length popped))
            (weight w result + weight w popped) (pq_c pq' ++ take i arr))
    as Hpopped.
  { apply ahead_pops; [done..| | | |].
    - apply Forall_forall. intros p Hp. apply w_nonneg.
      assert (p ∈ drop i arr) as Hp'.
      { rewrite (drop_S arr (arr !!! i) i) by done.
        rewrite <- Hperm, app_comm_cons, <- Hperm'.
        apply elem_of_app. left. apply elem_of_app. by left. }
      apply list_elem_of_lookup in Hp' as [k Hk]. rewrite lookup_drop in Hk.
      by eapply list_elem_of_lookup_2.
    - apply Forall_forall. intros h Hh.
      pose proof (sorted_take_bound arr i h arr_sorted ltac:(lia) Hh). lia.
    - lia.
    - eapply ahead_perm; [|exact Hahead].
      rewrite (take_S_r arr i (arr !!! i)) by done.
      rewrite (app_assoc popped), Hperm'.
      rewrite (Permutation_app_comm (take i arr) [arr !!! i]). simpl.
      symmetry. apply Permutation_middle. }
  rewrite weight_app.
  destruct Hexit as [Hexit|Hexit].
  - by replace (slots_floor arr i)
      with (dead (arr !!! i) - Z.of_nat (length popped)) by lia.
  - apply (ahead_skip w F (dead (arr !!! i) - Z.of_nat (length popped)));
      [done|lia|].
    rewrite Hexit. simpl. apply Forall_forall. intros h Hh.
    by apply sorted_take_bound; [|lia|].
Qed.

Lemma for_loop_ahead :
  F ⊆+ arr -> hall F ->
  weight w F
  <= weight w (for_loop arr (length arr) (pq_new jobComparator) []).2.
Proof.
  intros Hsub Hhall.
  pose proof (for_loop_invariant arr ahead_inv (length arr)) as Hloop.
  destruct (Hloop (fun i pq result Hi => ahead_inv_step i pq result Hi)
              (pq_new jobComparator) [] (ahead_inv_init Hsub Hhall))
    as [_ (G & _ & [_ Hlen] & Hw)].
  simpl in Hlen. destruct G as [|g G]; [|simpl in Hlen; lia].
  simpl in Hw. lia.
Qed.

End AheadLoop.

(** Whatever the weights, as long as they grow with the profit and are not
    negative, the selected jobs weigh at least as much as any selection of
    jobs of the array that obeys [hall]. *)
Lemma scheduled_ahead {Sort : StdSort} {Heap : StdHeap} (w : Job -> Z)
    (arr F : list Job) :
  (forall x y, profit x <= profit y -> w x <= w y) ->
  (forall j, j ∈ arr -> 0 <= w j) ->
  Forall deadline_ok arr -> F ⊆+ arr -> hall F ->
  weight w F <= weight w (scheduled arr).
Proof.
  intros Hmono Hnonneg Hok Hsub Hhall.
  rewrite scheduled_eq.
  rewrite (weight_perm w _ _ (std_sort_perm _ _ _ deadComparator_swo)).
  apply for_loop_ahead; [apply array_after_sorted| |done| | |done].
  - by rewrite array_after_perm.
  - intros j Hj. apply Hnonneg. by rewrite <- (array_after_perm arr).
  - by rewrite array_after_perm.
Qed.


Lemma feasible_perm (F F' : list Job) : F ≡ₚ F' -> feasible F -> feasible F'.
Proof.
  intros Hperm (plan & HF & Hnd & Hplan). exists plan. by rewrite <- Hperm.
Qed.

(** Running the selected jobs in the order in which they are returned, one
    per slot from slot 1 on, meets every deadline. *)
Lemma scheduled_feasible {Sort : StdSort} {Heap : StdHeap} (arr : list Job) :
  Forall deadline_ok arr -> feasible (scheduled arr).
Proof.
  intros Hok. set (l := scheduled arr).
  exists (zip l (seqZ 1 (Z.of_nat (length l)))).
  assert (length (seqZ 1 (Z.of_nat (length l))) = length l) as Hlen
    by (rewrite length_seqZ; lia).
  split_and!.
  - rewrite fst_zip; [done|lia].
  - rewrite snd_zip; [apply NoDup_seqZ|lia].
  - apply Forall_lookup. intros p [j s] Hp. simpl.
    apply lookup_zip_Some in Hp as [Hj Hs].
    apply lookup_seqZ in Hs as [-> _].
    pose proof (sorted_count_le _ p j (scheduled_sorted arr) Hj) as Hcount.
    pose proof (scheduled_slots arr Hok (dead j)) as Hslots. lia.
Qed.

Lemma scheduled_submseteq {Sort : StdSort} {Heap : StdHeap} (arr : list Job) :
  scheduled arr ⊆+ arr.
Proof.
  destruct (scheduled_contents arr) as [rest Hperm].
  transitivity (scheduled arr ++ rest); [by apply submseteq_inserts_r|].
  by apply Permutation_submseteq.
Qed.

Section Optimality.
Context {Sort : StdSort} {Heap : StdHeap}.
Implicit Types (arr F : list Job).



(** X3: every job of the array is returned exactly when the whole array is
    feasible. *)
Theorem getJobScheduling_all_iff_feasible arr :
  Forall deadline_ok arr ->
  (scheduled arr ≡ₚ arr <-> feasible arr) /\
  (length (getJobScheduling arr).2 = length arr <-> feasible arr).
Proof.
  intros Hok.
  assert (feasible arr -> scheduled arr ≡ₚ arr) as Hall.
  { intros Hfeasible. apply submseteq_length_Permutation.
    - apply scheduled_submseteq.
    - pose proof (scheduled_ahead (fun _ => 1) arr arr) as Hahead.
      rewrite !weight_one in Hahead.
      apply Nat2Z.inj_le, Hahead; [done|lia|done..|by apply feasible_hall]. }
  assert (scheduled arr ≡ₚ arr -> feasible arr) as Hback.
  { intros Hperm. apply (feasible_perm (scheduled arr)); [done|].
    by apply scheduled_feasible. }
  split; [by split|].
  rewrite getJobScheduling_eq. simpl. rewrite length_fmap. split.
  - intros Hlen. apply Hback, submseteq_length_Permutation.
    + apply scheduled_submseteq.
    + lia.
  - intros Hfeasible. by rewrite (Hall Hfeasible).
Qed.

End Optimality.


(** X8: a job whose deadline is 0 is never returned: every job returned has
    a deadline of at least 1. *)
Theorem getJobScheduling_deadline_positive {Sort : StdSort} {Heap : StdHeap}
    (arr : list Job) (j : Job) :
  Forall deadline_ok arr -> j ∈ scheduled arr ->
  id j ∈ (getJobScheduling arr).2 /\ 1 <= dead j.
Proof.
  intros Hok Hj. split.
  - rewrite getJobScheduling_eq. simpl. by apply list_elem_of_fmap_2.
  - apply list_elem_of_lookup in Hj as [p Hp].
    pose proof (sorted_count_le _ p j (scheduled_sorted arr) Hp) as Hcount.
    pose proof (scheduled_slots arr Hok (dead j)) as Hslots. lia.
Qed.

(** ** What a job that is left out has lost to *)






Section Dominated.
Context {Heap : StdHeap}.
Variable arr : list Job.
Hypothesis arr_sorted : StronglySorted (not_after deadComparator) arr.
Hypothesis arr_ok : Forall deadline_ok arr.





End Dominated.


(** ** The heap algorithms have no say when the profits differ *)

(** A second implementation of the heap algorithms: the descending vector
    again, rebuilt from the reversed range. *)
Definition reversing_StdHeap : StdHeap := {|
  std_push_heap := fun A comp c => insertion_sort (flip comp) (reverse c);
  std_pop_heap := fun A comp c =>
    match c with
    | [] => []
    | x :: c' => insertion_sort (flip comp) (reverse c') ++ [x]
    end;
  std_push_heap_perm := fun A comp c x _ _ =>
    transitivity (insertion_sort_perm (flip comp) (reverse (c ++ [x])))
      (reverse_Permutation (c ++ [x]));
  std_push_heap_heap := fun A comp c x Hswo _ =>
    descending_is_heap comp _
      (insertion_sort_sorted (flip comp) (swo_flip comp Hswo) _);
  std_pop_heap_spec := fun A comp c x Hswo _ =>
    ex_intro _ (insertion_sort (flip comp) (reverse c))
      (conj eq_refl
         (conj (transitivity (insertion_sort_perm (flip comp) (reverse c))
                  (reverse_Permutation c))
            (descending_is_heap comp _
               (insertion_sort_sorted (flip comp) (swo_flip comp Hswo) _))))
|}.

Lemma for_loop_selection {Heap : StdHeap} (s : list Job) :
  NoDup (profit <$> s) ->
  (for_loop s (length s) (pq_new jobComparator) []).2 = selection s.
Proof.
  intros Hnd. unfold selection.
  apply (for_loop_rel Heap sorted_StdHeap s (length s));
    [done|done|apply pq_rel_new|apply contents_inv_init].
Qed.

(** X6: when the profits of the jobs are pairwise distinct, two
    implementations of the heap algorithms give the same call the same
    outcome: the same array left behind and the same identifiers returned. *)
Theorem getJobScheduling_heap_independent {Sort : StdSort}
    (Heap1 Heap2 : StdHeap) (arr : list Job) :
  NoDup (profit <$> arr) ->
  getJobScheduling (Heap:=Heap1) arr = getJobScheduling (Heap:=Heap2) arr.
Proof.
  intros Hnd.
  rewrite (getJobScheduling_eq (Heap:=Heap1)), (getJobScheduling_eq (Heap:=Heap2)).
  rewrite (scheduled_eq (Heap:=Heap1)), (scheduled_eq (Heap:=Heap2)).
  rewrite !array_after_eq.
  assert (NoDup (profit <$> std_sort deadComparator arr)) as Hnd'.
  { by rewrite std_sort_perm by apply deadComparator_swo. }
  by rewrite (for_loop_selection (Heap:=Heap1) _ Hnd'),
    (for_loop_selection (Heap:=Heap2) _ Hnd').
Qed.

(** ** [tests()] and [main()] *)

Section Tests.
Context {Sort : StdSort} {Heap : StdHeap}.

(** [assert(e)]: the program goes on when [e] holds and is aborted when it
    does not. *)
Definition assert (e : bool) : option unit :=
  if e then Some () else None.

(** [v[i] == c]; reading past the end of the vector counts as a failed
    comparison. *)
Definition at_is (v : list ascii) (i : nat) (c : ascii) : bool :=
  bool_decide (v !! i = Some c).

(** [tests()]: the text written to [std::cout], unless an assertion aborts
    the program. *)
Definition tests : option string :=
  let '(_, result1) := getJobScheduling jobs1 in
  _ ← assert (at_is result1 0 "a");
  _ ← assert (at_is result1 1 "c");
  _ ← assert (at_is result1 2 "e");
  let '(_, result2) := getJobScheduling jobs2 in
  _ ← assert (at_is result2 0 "x");
  _ ← assert (at_is result2 1 "y");
  _ ← assert (at_is result2 2 "w");
  Some ("All tests have successfully passed!" +:+ String "010" "").

(** [main()]: the output and the exit status. *)
Definition main : option (string * Z) :=
  out ← tests; Some (out, 0).

End Tests.

Lemma scheduled_jobs1_sort {Sort : StdSort} {Heap : StdHeap} :
  scheduled jobs1
  = std_sort deadComparator
      [mkJob "e" 3 15; mkJob "a" 2 100; mkJob "c" 2 27].
Proof.
  rewrite scheduled_eq. f_equal.
  assert (NoDup (profit <$> jobs1)) as Hnd
    by (apply (bool_decide_unpack _); by vm_compute).
  rewrite for_loop_selection by by rewrite array_after_perm.
  assert (Forall (fun s => selection s
                           = [mkJob "e" 3 15; mkJob "a" 2 100; mkJob "c" 2 27])
            (sorted_permutations jobs1)) as Hall
    by (apply (bool_decide_unpack _); by vm_compute).
  rewrite Forall_forall in Hall. apply Hall.
  apply sorted_permutations_elem;
    [apply array_after_perm|apply array_after_sorted].
Qed.

Lemma scheduled_jobs2_eq {Sort : StdSort} {Heap : StdHeap} :
  scheduled jobs2 = [mkJob "x" 1 50; mkJob "y" 2 60; mkJob "w" 3 30].
Proof.
  assert (NoDup (profit <$> jobs2)) as Hnd
    by (apply (bool_decide_unpack _); by vm_compute).
  pose proof (scheduled_candidates jobs2 Hnd) as Hin.
  assert (Forall (fun r => r = [mkJob "x" 1 50; mkJob "y" 2 60; mkJob "w" 3 30])
            (candidates jobs2)) as Hall
    by (apply (bool_decide_unpack _); by vm_compute).
  rewrite Forall_forall in Hall. by apply Hall.
Qed.

(** X7: [main()] either prints the line of [tests()] and returns 0, or is
    aborted by the first assertion; which of the two depends on the library
    alone: the assertions hold exactly when [sort] leaves [a] before [c] in
    the vector [e, a, c] of selected jobs.  Insertion sort does, so the
    program runs through; a sort that treats equivalent jobs the other way
    round makes it abort. *)
Theorem main_depends_on_tie_break :
  (forall (Sort : StdSort) (Heap : StdHeap),
     (main = Some ("All tests have successfully passed!" +:+ String "010" "", 0)
      \/ main = None) /\
     (main = Some ("All tests have successfully passed!" +:+ String "010" "", 0)
      <-> std_sort deadComparator
            [mkJob "e" 3 15; mkJob "a" 2 100; mkJob "c" 2 27]
          = [mkJob "a" 2 100; mkJob "c" 2 27; mkJob "e" 3 15])) /\
  main (Sort:=insertion_StdSort) (Heap:=sorted_StdHeap)
  = Some ("All tests have successfully passed!" +:+ String "010" "", 0) /\
  main (Sort:=reversing_StdSort) (Heap:=sorted_StdHeap) = None.
Proof.
  split; [|by vm_compute].
  intros Sort Heap. unfold main, tests.
  rewrite !getJobScheduling_eq, scheduled_jobs2_eq, scheduled_jobs1_sort.
  set (r := std_sort deadComparator _).
  assert (r = [mkJob "a" 2 100; mkJob "c" 2 27; mkJob "e" 3 15] \/
          r = [mkJob "c" 2 27; mkJob "a" 2 100; mkJob "e" 3 15]) as Hr.
  { assert (Forall (fun r =>
                      r = [mkJob "a" 2 100; mkJob "c" 2 27; mkJob "e" 3 15] \/
                      r = [mkJob "c" 2 27; mkJob "a" 2 100; mkJob "e" 3 15])
              (sorted_permutations
                 [mkJob "e" 3 15; mkJob "a" 2 100; mkJob "c" 2 27])) as Hall
      by (apply (bool_decide_unpack _); by vm_compute).
    rewrite Forall_forall in Hall. apply Hall.
    apply sorted_permutations_elem;
      [apply std_sort_perm|apply std_sort_sorted]; apply deadComparator_swo. }
  destruct Hr as [->| ->].
  - split; [by left|]. by split.
  - split; [by right|]. by split.
Qed.

(** ** The further properties on the arrays of [tests()] *)




Lemma getJobScheduling_all_iff_feasible_witness :
  Forall deadline_ok [mkJob "x" 1 50; mkJob "y" 2 60; mkJob "w" 3 30] /\
  feasible [mkJob "x" 1 50; mkJob "y" 2 60; mkJob "w" 3 30] /\
  scheduled [mkJob "x" 1 50; mkJob "y" 2 60; mkJob "w" 3 30]
  ≡ₚ [mkJob "x" 1 50; mkJob "y" 2 60; mkJob "w" 3 30].
Proof.
  assert (Forall deadline_ok [mkJob "x" 1 50; mkJob "y" 2 60; mkJob "w" 3 30])
    as Hok by (apply (bool_decide_unpack _); by vm_compute).
  assert (feasible [mkJob "x" 1 50; mkJob "y" 2 60; mkJob "w" 3 30])
    as Hfeasible.
  { exists [(mkJob "x" 1 50, 1); (mkJob "y" 2 60, 2); (mkJob "w" 3 30, 3)].
    split_and!; [done|..]; apply (bool_decide_unpack _); by vm_compute. }
  split_and!; [exact Hok|exact Hfeasible|].
  apply (proj1 (getJobScheduling_all_iff_feasible _ Hok)), Hfeasible.
Defined.


Lemma getJobScheduling_deadline_positive_witness :
  Forall deadline_ok (mkJob "o" 0 70 :: jobs2) /\
  mkJob "x" 1 50 ∈ scheduled (mkJob "o" 0 70 :: jobs2) /\
  id (mkJob "x" 1 50) ∈ (getJobScheduling (mkJob "o" 0 70 :: jobs2)).2 /\
  1 <= dead (mkJob "x" 1 50).
Proof.
  assert (Forall deadline_ok (mkJob "o" 0 70 :: jobs2)) as Hok
    by (apply (bool_decide_unpack _); by vm_compute).
  assert (mkJob "x" 1 50 ∈ scheduled (mkJob "o" 0 70 :: jobs2)) as Hin
    by (apply (bool_decide_unpack _); by vm_compute).
  split_and!; [exact Hok|exact Hin|..];
    apply (getJobScheduling_deadline_positive _ _ Hok Hin).
Defined.


Lemma getJobScheduling_heap_independent_witness :
  NoDup (profit <$> jobs1) /\
  getJobScheduling (Heap:=sorted_StdHeap) jobs1
  = getJobScheduling (Heap:=reversing_StdHeap) jobs1.
Proof.
  assert (NoDup (profit <$> jobs1)) as Hnd
    by (apply (bool_decide_unpack _); by vm_compute).
  split; [exact Hnd|].
  apply (getJobScheduling_heap_independent sorted_StdHeap reversing_StdHeap
           jobs1 Hnd).
Defined.
